(** * Live captions / live translation pipeline: display buffer, stages, shutdown

    A shallow embedding of the Python programs
    [live_translate/live_translate.py], [live_captions/live_captions.py] and
    [test/live_caption_optimised/live_caption.py].

    - A Python [str] is a [list ascii], a sequence of characters with code
      points below 256; literals are written as Rocq strings and coerced.
      [len], [+], [strip], [in] and the slice [s[-n:]] are modelled with
      Python's semantics (including the slice with a zero or negative
      bound).
    - [queue.Queue] is a FIFO list together with its [maxsize].
    - The shared [state] dictionary of [live_translate.py] has a fixed set of
      keys and is a record.
    - Threads are control points plus a step function over the shared state. *)

From Stdlib Require Import ZArith QArith Qround Lia Lqa Ascii String.
From stdpp Require Import base list strings.

Local Open Scope Z_scope.

(** ** Python strings *)

Module PyStr.

Definition str : Type := list ascii.

Definition lit (s : string) : str := list_ascii_of_string s.

(** Code point of a character. *)
Definition ord (c : ascii) : nat := nat_of_ascii c.

(** [str.isspace] on one character, for code points below 256: the ASCII
    controls 9-13 and 28-31, the space, NEL (133) and the no-break space
    (160). *)
Definition is_space (c : ascii) : bool :=
  let n := ord c in
  ((9 <=? n) && (n <=? 13))%nat || ((28 <=? n) && (n <=? 32))%nat
  || (n =? 133)%nat || (n =? 160)%nat.

(** [s.lstrip()] *)
Fixpoint lstrip (s : str) : str :=
  match s with
  | [] => []
  | c :: r => if is_space c then lstrip r else s
  end.

(** [s.rstrip()] *)
Fixpoint rstrip (s : str) : str :=
  match s with
  | [] => []
  | c :: r =>
      match rstrip r with
      | [] => if is_space c then [] else [c]
      | r' => c :: r'
      end
  end.

(** [s.strip()] *)
Definition strip (s : str) : str := rstrip (lstrip s).

(** [len(s)] *)
Definition len (s : str) : Z := Z.of_nat (length s).

(** Truth value of a string: [if s:] *)
Definition truthy (s : str) : bool :=
  match s with [] => false | _ => true end.

(** The slice [s[k:]] for an index [k] that may be negative. *)
Definition slice_from (k : Z) (s : str) : str :=
  if k <? 0 then drop (Z.to_nat (Z.max 0 (len s + k))) s
  else drop (Z.to_nat k) s.

(** [s[-n:]], as the programs write it: the index is the negation of [n],
    so [n = 0] gives [s[0:]], the whole string. *)
Definition last_chars (n : Z) (s : str) : str := slice_from (- n) s.

(** [s.startswith(p)] *)
Fixpoint starts_with (p s : str) : bool :=
  match p, s with
  | [], _ => true
  | _ :: _, [] => false
  | a :: p', b :: s' => Ascii.eqb a b && starts_with p' s'
  end.

(** [p in s] *)
Fixpoint contains (p s : str) : bool :=
  starts_with p s ||
  match s with
  | [] => false
  | _ :: r => contains p r
  end.

(** [str.upper] itself is a parameter of the caption variants below.  This
    is what it does on a string of ASCII characters (code points below
    128), kept as an instance to compute with. *)
Definition upper_ascii_char (c : ascii) : ascii :=
  let n := ord c in
  if ((97 <=? n) && (n <=? 122))%nat then ascii_of_nat (n - 32) else c.

Definition upper_ascii (s : str) : str := map upper_ascii_char s.

(** [s.replace] of "..." by the empty string: occurrences are removed left to right, without
    overlap. *)
Fixpoint remove_dots (s : str) : str :=
  match s with
  | "."%char :: ("."%char :: ("."%char :: r3)) => remove_dots r3
  | c :: r => c :: remove_dots r
  | [] => []
  end.

End PyStr.

Import PyStr.
Coercion lit : string >-> str.

Definition dots : str := "...".
Definition sep : str := " ".
Definition nl : str := lit (String (ascii_of_nat 10) EmptyString).


(** ** [queue.Queue] *)

Module Chan.

(** [queue.Queue(maxsize)]: a FIFO; [maxsize <= 0] means no bound. *)
Record Queue (A : Type) : Type := mkQueue { maxsize : Z; items : list A }.
Arguments mkQueue {A} _ _.
Arguments maxsize {A} _.
Arguments items {A} _.

(** [Queue()]: the default [maxsize] is 0. *)
Definition new {A : Type} : Queue A := mkQueue 0 [].

Definition qsize {A : Type} (q : Queue A) : Z := Z.of_nat (length (items q)).

Definition empty {A : Type} (q : Queue A) : bool :=
  match items q with [] => true | _ => false end.

Definition full {A : Type} (q : Queue A) : bool :=
  (0 <? maxsize q) && (maxsize q <=? qsize q).

(** [q.put(x)]; [None] when the call would block on a full queue. *)
Definition put {A : Type} (x : A) (q : Queue A) : option (Queue A) :=
  if full q then None else Some (mkQueue (maxsize q) (items q ++ [x])).

(** [q.get()]; [None] when the call would block on an empty queue. *)
Definition get {A : Type} (q : Queue A) : option (A * Queue A) :=
  match items q with
  | [] => None
  | x :: r => Some (x, mkQueue (maxsize q) r)
  end.

(** [put] of a whole list, left to right. *)
Fixpoint put_all {A : Type} (xs : list A) (q : Queue A) : option (Queue A) :=
  match xs with
  | [] => Some q
  | x :: r => match put x q with Some q' => put_all r q' | None => None end
  end.

(** [n] successive [get]s; the values in the order received. *)
Fixpoint get_n {A : Type} (n : nat) (q : Queue A) : option (list A * Queue A) :=
  match n with
  | O => Some ([], q)
  | S k =>
      match get q with
      | None => None
      | Some (x, q') =>
          match get_n k q' with
          | None => None
          | Some (xs, q'') => Some (x :: xs, q'')
          end
      end
  end.

End Chan.

Import Chan.

(** What the call of an external collaborator does: it returns a value or
    raises. *)
Inductive Outcome (A : Type) : Type :=
| Returns (a : A)
| Raises.
Arguments Returns {A} _.
Arguments Raises {A}.

(** What the recognizer answers for one frame: [AcceptWaveform] is true and
    [Result()] carries the field ["text"], or it is false and
    [PartialResult()] carries the field ["partial"] (a missing field reads as
    the empty string). *)
Inductive Recognized : Type :=
| FinalResult (text_field : str)
| PartialResult (partial_field : str).

(** ** live_translate.py *)

Module Translate.

(** The dictionary put on [recognized_queue]. *)
Record RecognizedItem : Type :=
  mkRecognized { text : str; is_final : bool }.

(** The same dictionary once [translate_loop] has added
    ["translated_text"]. *)
Record TranslatedItem : Type :=
  mkTranslated { orig : RecognizedItem; translated_text : str }.

Record Config : Type :=
  mkConfig { max_buffer_length : Z; update_delay_ms : Z }.

(** The mutable keys of the shared [state] dictionary, and the text shown
    by [state["label"]]. *)
Record State : Type := mkState {
  config : Config;
  running : bool;
  recognized_queue : Queue RecognizedItem;
  translated_queue : Queue TranslatedItem;
  text_buffer : str;
  partial_text : str;
  label : str
}.

Definition set_running (b : bool) (s : State) : State :=
  mkState (config s) b (recognized_queue s) (translated_queue s)
          (text_buffer s) (partial_text s) (label s).

Definition set_recognized_queue (q : Queue RecognizedItem) (s : State) : State :=
  mkState (config s) (running s) q (translated_queue s)
          (text_buffer s) (partial_text s) (label s).

Definition set_translated_queue (q : Queue TranslatedItem) (s : State) : State :=
  mkState (config s) (running s) (recognized_queue s) q
          (text_buffer s) (partial_text s) (label s).

Definition set_text_buffer (t : str) (s : State) : State :=
  mkState (config s) (running s) (recognized_queue s) (translated_queue s)
          t (partial_text s) (label s).

Definition set_partial_text (t : str) (s : State) : State :=
  mkState (config s) (running s) (recognized_queue s) (translated_queue s)
          (text_buffer s) t (label s).

Definition set_label (t : str) (s : State) : State :=
  mkState (config s) (running s) (recognized_queue s) (translated_queue s)
          (text_buffer s) (partial_text s) t.

(** The [state] built by [main]. *)
Definition init_state (cfg : Config) : State :=
  mkState cfg true new new [] [] [].

(** *** setup_translator_auto *)

Definition Translator : Type := str -> Outcome str.

(** [argos] is [argostranslate.translate.translate] for the configured
    pair; [already_installed] and [package_available] are what the package
    index says. *)
Definition setup_translator_auto
    (already_installed package_available : bool) (argos : Translator)
    : Translator :=
  if already_installed then argos
  else if package_available then argos
  else fun text => Returns text.

(** A translator that raises on every call, and the identity. *)
Definition failing : Translator := fun _ => Raises.
Definition identity : Translator := fun text => Returns text.

(** *** capture_audio_loop: one recognizer answer *)

Definition capture_event (r : Recognized) : option RecognizedItem :=
  match r with
  | FinalResult raw =>
      let text := strip raw in
      if truthy text then Some (mkRecognized text true) else None
  | PartialResult raw =>
      let text := strip raw in
      if truthy text then Some (mkRecognized text false) else None
  end.

(** *** update_gui *)

(** Body of the [while not translated_queue.empty()] loop. *)
Definition process_item (item : TranslatedItem) (s : State) : State :=
  if is_final (orig item) then
    set_partial_text [] (set_text_buffer (text_buffer s ++ sep ++ translated_text item) s)
  else
    set_partial_text (translated_text item ++ dots) s.

(** The loop over the items found in the queue. *)
Fixpoint drain (its : list TranslatedItem) (s : State) : State :=
  match its with
  | [] => s
  | item :: rest => drain rest (process_item item s)
  end.

(** [display_text] as composed before trimming. *)
Definition compose (s : State) : str :=
  let display_text := strip (text_buffer s) in
  if truthy (partial_text s)
  then display_text ++ nl ++ strip (partial_text s)
  else display_text.

(** "Trim if too long", then "Update label". *)
Definition trim_and_show (s : State) : State :=
  let display_text := compose s in
  let max_len := max_buffer_length (config s) in
  if len display_text >? max_len then
    let display_text := last_chars max_len display_text in
    let s :=
      if len (text_buffer s) >? max_len
      then set_text_buffer (last_chars max_len (text_buffer s)) s
      else s in
    set_label display_text s
  else set_label display_text s.

(** One call of [update_gui], up to the label update. *)
Definition update_gui (s : State) : State :=
  let s1 := drain (items (translated_queue s)) s in
  let s2 := set_translated_queue
              (mkQueue (maxsize (translated_queue s)) []) s1 in
  trim_and_show s2.

(** [update_gui] called once per batch of delivered events. *)
Fixpoint ticks (batches : list (list TranslatedItem)) (s : State) : State :=
  match batches with
  | [] => s
  | b :: rest =>
      ticks rest
        (update_gui (set_translated_queue
                       (mkQueue (maxsize (translated_queue s)) b) s))
  end.

(** The text that the final events of a list add to [text_buffer]. *)
Fixpoint appended (evs : list TranslatedItem) : str :=
  match evs with
  | [] => []
  | e :: rest =>
      (if is_final (orig e) then sep ++ translated_text e else [])
      ++ appended rest
  end.

Definition partial_item (t : str) : TranslatedItem :=
  mkTranslated (mkRecognized t false) t.

Definition final_item (t : str) : TranslatedItem :=
  mkTranslated (mkRecognized t true) t.

End Translate.

(** ** The threads of live_translate.py *)

Module Threads.

Import Translate.

(** Control points of [capture_audio_loop], inside the recorder block. *)
Inductive CapturePc : Type :=
| CapHead      (* at [while state["running"]] *)
| CapRecord    (* at [m.record(...)], with the rest of the body *)
| CapExited.   (* the function has returned *)

(** Control points of [translate_loop]. *)
Inductive TranslatePc : Type :=
| TrHead       (* at [while state["running"]] *)
| TrBody       (* at [if not recognized_queue.empty()] *)
| TrExited     (* the loop was left, the function has returned *)
| TrRaised.    (* an exception left the function, the thread is dead *)

(** Control points of [main] from step 8 on. *)
Inductive MainPc : Type :=
| MainStart        (* before the first [update_gui(state)] *)
| MainLoop         (* inside [root.mainloop()] *)
| MainFinally      (* at [state["running"] = False] *)
| MainJoinCapture  (* at [t_capture.join()] *)
| MainJoinTranslate(* at [t_translate.join()] *)
| MainReturned.

Record Pipeline : Type := mkPipeline {
  st : State;
  capture_pc : CapturePc;
  translate_pc : TranslatePc;
  main_pc : MainPc;
  timer : bool   (* a call of [update_gui] is pending in [root.after] *)
}.

Definition start (cfg : Config) : Pipeline :=
  mkPipeline (init_state cfg) CapHead TrHead MainStart false.

(** One step of [capture_audio_loop]; [o] is what recording a frame and
    asking the recognizer does when the control is at [CapRecord]. *)
Definition capture_step (o : Outcome Recognized) (s : State) (pc : CapturePc)
    : option (State * CapturePc) :=
  match pc with
  | CapHead => if running s then Some (s, CapRecord) else Some (s, CapExited)
  | CapRecord =>
      match o with
      | Raises => Some (set_running false s, CapExited)
      | Returns r =>
          match capture_event r with
          | None => Some (s, CapHead)
          | Some item =>
              match put item (recognized_queue s) with
              | None => None
              | Some q => Some (set_recognized_queue q s, CapHead)
              end
          end
      end
  | CapExited => None
  end.

(** One step of [translate_loop]. *)
Definition translate_step (translator : Translator) (s : State) (pc : TranslatePc)
    : option (State * TranslatePc) :=
  match pc with
  | TrHead => if running s then Some (s, TrBody) else Some (s, TrExited)
  | TrBody =>
      if empty (recognized_queue s) then Some (s, TrHead)
      else
        match get (recognized_queue s) with
        | None => None
        | Some (item, rq) =>
            match translator (text item) with
            | Raises => Some (set_recognized_queue rq s, TrRaised)
            | Returns translated =>
                match put (mkTranslated item translated) (translated_queue s) with
                | None => None
                | Some tq =>
                    Some (set_translated_queue tq (set_recognized_queue rq s),
                          TrHead)
                end
            end
        end
  | TrExited | TrRaised => None
  end.

Definition capture_alive (pc : CapturePc) : bool :=
  match pc with CapExited => false | _ => true end.

Definition translate_alive (pc : TranslatePc) : bool :=
  match pc with TrExited | TrRaised => false | _ => true end.

(** What the scheduler and the environment choose next. *)
Inductive Action : Type :=
| ACapture (o : Outcome Recognized)   (* the capture thread runs *)
| ATranslate                          (* the translation thread runs *)
| ATick                               (* Tk fires the pending [update_gui] *)
| AClose                              (* the window is closed, [mainloop] returns *)
| AMain.                              (* the main thread runs outside [mainloop] *)

Definition step (translator : Translator) (a : Action) (p : Pipeline)
    : option Pipeline :=
  match a with
  | ACapture o =>
      match capture_step o (st p) (capture_pc p) with
      | None => None
      | Some (s, pc) =>
          Some (mkPipeline s pc (translate_pc p) (main_pc p) (timer p))
      end
  | ATranslate =>
      match translate_step translator (st p) (translate_pc p) with
      | None => None
      | Some (s, pc) =>
          Some (mkPipeline s (capture_pc p) pc (main_pc p) (timer p))
      end
  | ATick =>
      match main_pc p with
      | MainLoop =>
          if timer p then
            let s := update_gui (st p) in
            Some (mkPipeline s (capture_pc p) (translate_pc p) MainLoop (running s))
          else None
      | _ => None
      end
  | AClose =>
      match main_pc p with
      | MainLoop =>
          Some (mkPipeline (st p) (capture_pc p) (translate_pc p) MainFinally (timer p))
      | _ => None
      end
  | AMain =>
      match main_pc p with
      | MainStart =>
          let s := update_gui (st p) in
          Some (mkPipeline s (capture_pc p) (translate_pc p) MainLoop (running s))
      | MainLoop => None
      | MainFinally =>
          Some (mkPipeline (set_running false (st p)) (capture_pc p)
                           (translate_pc p) MainJoinCapture (timer p))
      | MainJoinCapture =>
          if capture_alive (capture_pc p) then None
          else Some (mkPipeline (st p) (capture_pc p) (translate_pc p)
                                MainJoinTranslate (timer p))
      | MainJoinTranslate =>
          if translate_alive (translate_pc p) then None
          else Some (mkPipeline (st p) (capture_pc p) (translate_pc p)
                                MainReturned (timer p))
      | MainReturned => None
      end
  end.

(** A schedule, run from left to right. *)
Fixpoint run (translator : Translator) (acts : list Action) (p : Pipeline)
    : option Pipeline :=
  match acts with
  | [] => Some p
  | a :: rest =>
      match step translator a p with
      | None => None
      | Some p' => run translator rest p'
      end
  end.

Definition reachable (translator : Translator) (cfg : Config) (p : Pipeline) : Prop :=
  exists acts, run translator acts (start cfg) = Some p.

Definition is_translate (a : Action) : bool :=
  match a with ATranslate => true | _ => false end.

Definition is_tick (a : Action) : bool :=
  match a with ATick => true | _ => false end.

(** One round of the capture loop that hears the final text "a". *)
Definition hear_a : list Action :=
  [ACapture (Returns (FinalResult "a")); ACapture (Returns (FinalResult "a"))].

Fixpoint rounds (n : nat) : list Action :=
  match n with
  | O => []
  | S k => hear_a ++ rounds k
  end.

(** How many of its own steps the translation thread needs at most to
    leave its loop once [running] is false. *)
Definition tr_rank (pc : TranslatePc) : nat :=
  match pc with
  | TrBody => 2
  | TrHead => 1
  | TrExited | TrRaised => 0
  end.

(** Number of steps of the translation thread in a schedule. *)
Fixpoint translate_steps (acts : list Action) : nat :=
  match acts with
  | [] => 0
  | a :: rest => (if is_translate a then 1 else 0) + translate_steps rest
  end.

(** Both queues are the unbounded queues made by [Queue()]. *)
Definition unbounded_queues (p : Pipeline) : Prop :=
  maxsize (recognized_queue (st p)) = 0
  /\ maxsize (translated_queue (st p)) = 0.

(** What the main thread has already waited for at each of its control
    points. *)
Definition joined (p : Pipeline) : Prop :=
  match main_pc p with
  | MainStart | MainLoop | MainFinally => True
  | MainJoinCapture => running (st p) = false
  | MainJoinTranslate =>
      running (st p) = false /\ capture_pc p = CapExited
  | MainReturned =>
      running (st p) = false /\ capture_pc p = CapExited
      /\ translate_alive (translate_pc p) = false
  end.

End Threads.

(** ** live_captions.py *)

Module Captions.

(** What [capture_audio] puts on [transcript_queue] for one recognizer
    answer; [upper] is [str.upper]. *)
Definition capture_item (upper : str -> str) (r : Recognized) : option str :=
  match r with
  | FinalResult raw =>
      let text := strip raw in
      if truthy text then Some (upper text) else None
  | PartialResult raw =>
      let text := strip raw in
      if truthy text then Some (upper text ++ dots) else None
  end.

(** [self.text_buffer], [self.transcript_queue] and the text of
    [self.label]. *)
Record Gui : Type := mkGui {
  text_buffer : str;
  transcript_queue : Queue str;
  label : str
}.

(** The [try] block of [update_gui], [max_length] being
    [max_buffer_length] of the configuration. *)
Definition update_gui (max_length : Z) (g : Gui) : Gui :=
  if empty (transcript_queue g) then g
  else
    match get (transcript_queue g) with
    | None => g
    | Some (new_text, q) =>
        if contains dots new_text then
          let display_text := text_buffer g ++ sep ++ new_text in
          mkGui (text_buffer g) q (last_chars max_length display_text)
        else
          let buffer := text_buffer g ++ sep ++ new_text in
          let display_text := buffer in
          mkGui buffer q (last_chars max_length display_text)
    end.

End Captions.

(** ** test/live_caption_optimised/live_caption.py *)

Module CaptionsOptimised.

(** [capture_audio] is the one of [live_captions.py]. *)
Definition capture_item := Captions.capture_item.

Record Gui : Type := mkGui {
  text_buffer : str;
  transcript_queue : Queue str;
  label : str
}.

Definition update_gui (max_length : Z) (g : Gui) : Gui :=
  if empty (transcript_queue g) then g
  else
    match get (transcript_queue g) with
    | None => g
    | Some (new_text, q) =>
        let buffer :=
          if contains dots new_text then new_text
          else text_buffer g ++ sep ++ new_text in
        let display_text := remove_dots (last_chars max_length buffer) in
        mkGui buffer q display_text
    end.

End CaptionsOptimised.

(** ** Boost, clip and quantise (capture_audio_loop, capture_audio) *)

Module Audio.

(** A value of the sample format: a number, an infinity or not-a-number.
    The gain is such a value too, once converted to the format of the
    samples (an infinity when it is too large for the format). *)
Inductive Sample : Type :=
| Num (q : Q)
| PosInf
| NegInf
| NaN.

(** The rounding of an exact result to the sample format: a number of the
    format or, on overflow, an infinity. *)
Definition Rounding : Type := Q -> Sample.

(** An infinity ([positive] or not) times the number [b]. *)
Definition inf_times (positive : bool) (b : Q) : Sample :=
  match (0 ?= b)%Q with
  | Eq => NaN
  | Lt => if positive then PosInf else NegInf
  | Gt => if positive then NegInf else PosInf
  end.

(** [x * y] on one sample. *)
Definition fmul (rnd : Rounding) (x y : Sample) : Sample :=
  match x, y with
  | NaN, _ => NaN
  | _, NaN => NaN
  | Num a, Num b => rnd (a * b)%Q
  | PosInf, Num b => inf_times true b
  | Num a, PosInf => inf_times true a
  | NegInf, Num b => inf_times false b
  | Num a, NegInf => inf_times false a
  | PosInf, PosInf => PosInf
  | NegInf, NegInf => PosInf
  | PosInf, NegInf => NegInf
  | NegInf, PosInf => NegInf
  end.

Definition qmax (x y : Q) : Q := if Qle_bool x y then y else x.
Definition qmin (x y : Q) : Q := if Qle_bool x y then x else y.

(** [np.maximum(x, y)]: not-a-number propagates. *)
Definition fmax (x y : Sample) : Sample :=
  match x, y with
  | NaN, _ => NaN
  | _, NaN => NaN
  | PosInf, _ => PosInf
  | _, PosInf => PosInf
  | NegInf, z => z
  | z, NegInf => z
  | Num a, Num b => Num (qmax a b)
  end.

(** [np.minimum(x, y)]: not-a-number propagates. *)
Definition fmin (x y : Sample) : Sample :=
  match x, y with
  | NaN, _ => NaN
  | _, NaN => NaN
  | NegInf, _ => NegInf
  | _, NegInf => NegInf
  | PosInf, z => z
  | z, PosInf => z
  | Num a, Num b => Num (qmin a b)
  end.

(** [np.clip(x, lo, hi)], that is [minimum(maximum(x, lo), hi)]. *)
Definition clip (x : Sample) (lo hi : Q) : Sample :=
  fmin (fmax x (Num lo)) (Num hi).

(** Rounding towards zero, the conversion of a real to an integer. *)
Definition truncate (x : Q) : Z :=
  if Qle_bool 0 x then Qfloor x else Qceiling x.

(** A two's complement 16-bit integer holding [z] modulo 2^16. *)
Definition wrap16 (z : Z) : Z := (z + 32768) mod 65536 - 32768.

(** [x.astype(np.int16)] on one sample.  The conversion of an infinity or
    of not-a-number is invalid and has no specified result: [None]. *)
Definition astype_int16 (x : Sample) : option Z :=
  match x with
  | Num q => Some (wrap16 (truncate q))
  | PosInf | NegInf | NaN => None
  end.

(** [np.clip(audio_data * audio_boost, -1.0, 1.0)] on one sample. *)
Definition boost_clip (rnd : Rounding) (audio_boost x : Sample) : Sample :=
  clip (fmul rnd x audio_boost) (-1) 1.

(** [(audio_data * 32767)] on one sample, before the conversion. *)
Definition scaled (rnd : Rounding) (audio_boost x : Sample) : Sample :=
  fmul rnd (boost_clip rnd audio_boost x) (Num 32767).

(** The two statements on one sample. *)
Definition quantise (rnd : Rounding) (audio_boost x : Sample) : option Z :=
  astype_int16 (scaled rnd audio_boost x).





(** The rounding of a format that holds every rational. *)
Definition exact : Rounding := fun x => Num x.

End Audio.

(** ** More of Python's strings *)

Module PyMore.

(** An index of a slice, clamped to the string as Python does. *)
Definition clamp (i : Z) (n : Z) : Z :=
  if i <? 0 then Z.max (n + i) 0 else Z.min i n.

(** The slice [s[a:b]]. *)
Definition slice (a b : Z) (s : str) : str :=
  let lo := clamp a (len s) in
  let hi := clamp b (len s) in
  if lo <? hi then take (Z.to_nat (hi - lo)) (drop (Z.to_nat lo) s) else [].

(** [s.endswith(p)] *)
Definition ends_with (p s : str) : bool := starts_with (reverse p) (reverse s).

(** [a == b] on strings. *)
Definition str_eq (a b : str) : bool := bool_decide (a = b :> list ascii).

End PyMore.

Import PyMore.

(** ** live_translate_old.py *)

Module TranslateOld.

Import Translate.

(** The keys of [state] that change, [text_buffer] being
    [state["text_buffer"]["value"]], and the text of the label. *)
Record State : Type := mkState {
  config : Config;
  running : bool;
  transcript_queue : Queue str;
  text_buffer : str;
  label : str
}.

Definition set_running (b : bool) (s : State) : State :=
  mkState (config s) b (transcript_queue s) (text_buffer s) (label s).

Definition set_transcript_queue (q : Queue str) (s : State) : State :=
  mkState (config s) (running s) q (text_buffer s) (label s).

Definition init_state (cfg : Config) : State := mkState cfg true new [] [].

(** Control points of [capture_audio_loop], as in live_translate.py: the
    loop head, the recording with the rest of the body, and the return. *)
Inductive Pc : Type := Head | AtRecord | Exited.

(** One step of [capture_audio_loop]; here the translator is called by the
    capture thread, inside its [try]. *)
Definition capture_step (translator : Translator) (o : Outcome Recognized)
    (s : State) (pc : Pc) : option (State * Pc) :=
  match pc with
  | Head => if running s then Some (s, AtRecord) else Some (s, Exited)
  | AtRecord =>
      match o with
      | Raises => Some (set_running false s, Exited)
      | Returns (FinalResult raw) =>
          let text := strip raw in
          if truthy text then
            match translator text with
            | Raises => Some (set_running false s, Exited)
            | Returns translated =>
                match put translated (transcript_queue s) with
                | None => None
                | Some q => Some (set_transcript_queue q s, Head)
                end
            end
          else Some (s, Head)
      | Returns (PartialResult raw) =>
          let text := strip raw in
          if truthy text then
            match translator text with
            | Raises => Some (set_running false s, Exited)
            | Returns translated =>
                match put (translated ++ dots) (transcript_queue s) with
                | None => None
                | Some q => Some (set_transcript_queue q s, Head)
                end
            end
          else Some (s, Head)
      end
  | Exited => None
  end.

(** One call of [update_gui], up to the label update. *)
Definition update_gui (s : State) : State :=
  if empty (transcript_queue s) then s
  else
    match get (transcript_queue s) with
    | None => s
    | Some (new_text, q) =>
        let '(buffer, display_text) :=
          if ends_with dots new_text
          then (text_buffer s, text_buffer s ++ sep ++ new_text)
          else (text_buffer s ++ sep ++ new_text,
                text_buffer s ++ sep ++ new_text) in
        let max_len := max_buffer_length (config s) in
        if len display_text >? max_len then
          mkState (config s) (running s) q
                  (last_chars max_len buffer) (last_chars max_len display_text)
        else
          mkState (config s) (running s) q buffer display_text
    end.

End TranslateOld.

(** ** live_caption/test-deepseek.py *)

Module Deepseek.

(** What the recognizer answers for one frame, as the serialized text that
    [Result()] or [PartialResult()] returns. *)
Inductive Answer : Type :=
| ResultJson (s : str)
| PartialJson (s : str).

(** What [capture_audio] puts on the queue for one answer. *)
Definition capture_item (a : Answer) : option str :=
  match a with
  | ResultJson s =>
      let result := slice 18 (-3) s in
      if truthy result then Some result else None
  | PartialJson s =>
      let partial := slice 17 (-3) s in
      if truthy partial then Some partial else None
  end.

Record Gui : Type := mkGui { transcript_queue : Queue str; label : str }.

(** The [while] loop of [update_gui] over the items found in the queue. *)
Fixpoint show_all (its : list str) (label : str) : str :=
  match its with
  | [] => label
  | text :: rest => show_all rest text
  end.

Definition update_gui (g : Gui) : Gui :=
  mkGui (mkQueue (maxsize (transcript_queue g)) [])
        (show_all (items (transcript_queue g)) (label g)).

End Deepseek.

(** ** test/live_caption/live_caption_gen.py *)

Module Gen.

(** [transcribe_chunk], given the texts of the segments. *)
Definition transcribe_chunk (segments : list str) : str :=
  strip (fold_left (fun transcription text => transcription ++ text ++ sep)
                   segments []).

End Gen.

(** ** setup_translator_auto: the package index *)

Module Setup.

Import Translate.

(** An installed language; a member of [translations_to] is [Some c] when it
    has an attribute [code] with value [c]. *)
Record Language : Type :=
  mkLanguage { code : str; translations_to : list (option str) }.

Record Package : Type := mkPackage { from_code : str; to_code : str }.

Definition has_code (to : str) (t : option str) : bool :=
  match t with Some c => str_eq c to | None => false end.

(** [already_installed] of live_translate.py: the nested [any]. *)
Definition already_installed (from to : str) (installed : list Language) : bool :=
  existsb (fun lang =>
             str_eq (code lang) from
             && existsb (has_code to) (translations_to lang))
          installed.

(** [valid_translations] of live_translate_old.py. *)
Definition valid_translations (lang : Language) : list str :=
  omap id (translations_to lang).

(** The inner [for] of live_translate_old.py, with its [break]. *)
Fixpoint scan_translations (to : str) (ts : list str) (flag : bool) : bool :=
  match ts with
  | [] => flag
  | t :: rest => if str_eq t to then true else scan_translations to rest flag
  end.

(** The outer [for] of live_translate_old.py, with its [break]. *)
Fixpoint scan_languages (from to : str) (langs : list Language) (flag : bool)
    : bool :=
  match langs with
  | [] => flag
  | lang :: rest =>
      if str_eq (code lang) from then
        let flag := scan_translations to (valid_translations lang) flag in
        if flag then flag else scan_languages from to rest flag
      else scan_languages from to rest flag
  end.

Definition already_installed_old (from to : str) (installed : list Language)
    : bool :=
  scan_languages from to installed false.

(** [next(p for p in available if ...)]; [None] is [StopIteration]. *)
Definition find_package (from to : str) (available : list Package)
    : option Package :=
  List.find (fun p => str_eq (from_code p) from && str_eq (to_code p) to)
            available.

(** [setup_translator_auto] on a package index; the download and the
    installation are assumed to succeed. *)
Definition setup (from to : str) (installed : list Language)
    (available : list Package) (argos : Translator) : Translator :=
  setup_translator_auto
    (already_installed from to installed)
    (match find_package from to available with Some _ => true | None => false end)
    argos.

End Setup.

(** ** setup_gui: the placement of the window *)

Module Window.

Record Geometry : Type := mkGeometry { width : Z; height : Z; x_pos : Z; y_pos : Z }.

(** The geometry that [setup_gui] (and [setup_window] of the caption
    variants) requests; [//] is the floor division. *)
Definition placement (screen_w screen_h default_w default_h : Z) : Geometry :=
  mkGeometry default_w default_h
             (screen_w / 2 - default_w / 2)
             (screen_h - default_h - 20).

End Window.

(** ** Observing a run of live_translate.py *)

Module Observe.

Import Translate Threads.

(** What a step adds to the list of events that the capture thread has put
    on [recognized_queue]. *)
Definition captured_by (a : Action) (p : Pipeline) : list RecognizedItem :=
  match a, capture_pc p with
  | ACapture (Returns r), CapRecord =>
      match capture_event r with Some item => [item] | None => [] end
  | _, _ => []
  end.

(** What a step hands to the display: the items that [update_gui] takes
    from [translated_queue]. *)
Definition shown_by (a : Action) (p : Pipeline) : list TranslatedItem :=
  match a, main_pc p with
  | ATick, MainLoop => if timer p then items (translated_queue (st p)) else []
  | AMain, MainStart => items (translated_queue (st p))
  | _, _ => []
  end.

(** A schedule run from left to right, with the events captured and the
    items shown along the way. *)
Fixpoint run_log (translator : Translator) (acts : list Action) (p : Pipeline)
    (captured : list RecognizedItem) (shown : list TranslatedItem)
    : option (Pipeline * list RecognizedItem * list TranslatedItem) :=
  match acts with
  | [] => Some (p, captured, shown)
  | a :: rest =>
      match step translator a p with
      | None => None
      | Some p' =>
          run_log translator rest p'
                  (captured ++ captured_by a p) (shown ++ shown_by a p)
      end
  end.

(** The item that [translate_loop] makes of a recognized item when the
    translator computes [f]. *)
Definition translated_by (f : str -> str) (item : RecognizedItem) : TranslatedItem :=
  mkTranslated item (f (text item)).

(** The schedule on which the window is closed and everything ends, from a
    state in which [main] is at [pc]; the capture thread gets silence. *)
Definition closing (pc : MainPc) : list Action :=
  match pc with
  | MainStart => [AMain; AClose; AMain]
  | MainLoop => [AClose; AMain]
  | MainFinally => [AMain]
  | _ => []
  end.

End Observe.

(** ** Successive calls of update_gui in the caption variants *)

Module CaptionsRun.

(** What the items without the marker add to [text_buffer] of
    live_captions.py. *)
Fixpoint committed (xs : list str) : str :=
  match xs with
  | [] => []
  | x :: rest => (if contains dots x then [] else sep ++ x) ++ committed rest
  end.

(** [n] calls of [update_gui] of live_captions.py, one per timer tick. *)
Definition calls (max_length : Z) (n : nat) (g : Captions.Gui) : Captions.Gui :=
  Nat.iter n (Captions.update_gui max_length) g.

(** [n] calls of [update_gui] of live_translate_old.py. *)
Definition old_calls (n : nat) (s : TranslateOld.State) : TranslateOld.State :=
  Nat.iter n TranslateOld.update_gui s.

End CaptionsRun.

(** * Properties *)

(** ** Strings *)

Section StringFacts.

Implicit Types s t : str.

Lemma len_app s t : len (s ++ t) = len s + len t.
Proof. unfold len. rewrite length_app. lia. Qed.

Lemma len_nonneg s : 0 <= len s.
Proof. unfold len. lia. Qed.

Lemma lstrip_length s : (length (lstrip s) <= length s)%nat.
Proof.
  induction s as [|c r IH]; simpl; [lia|].
  destruct (is_space c); simpl; lia.
Qed.

Lemma rstrip_length s : (length (rstrip s) <= length s)%nat.
Proof.
  induction s as [|c r IH]; simpl; [lia|].
  destruct (rstrip r) as [|a r'] eqn:E.
  - destruct (is_space c); simpl; lia.
  - simpl in *. lia.
Qed.

Lemma strip_len_le s : len (strip s) <= len s.
Proof.
  unfold strip, len.
  pose proof (rstrip_length (lstrip s)). pose proof (lstrip_length s). lia.
Qed.

Lemma rstrip_snoc_space s c : is_space c = true -> rstrip (s ++ [c]) = rstrip s.
Proof.
  intros Hc. induction s as [|a r IH]; simpl.
  - now rewrite Hc.
  - now rewrite IH.
Qed.

Lemma lstrip_snoc_space s c :
  is_space c = true ->
  lstrip (s ++ [c]) = match lstrip s with [] => [] | _ => lstrip s ++ [c] end.
Proof.
  intros Hc. induction s as [|a r IH]; simpl.
  - now rewrite Hc.
  - destruct (is_space a); [exact IH | reflexivity].
Qed.

Lemma strip_snoc_space s c : is_space c = true -> strip (s ++ [c]) = strip s.
Proof.
  intros Hc. unfold strip. rewrite lstrip_snoc_space by exact Hc.
  destruct (lstrip s) as [|a r] eqn:E; [reflexivity|].
  now apply rstrip_snoc_space.
Qed.

Lemma last_chars_pos n s :
  0 < n -> last_chars n s = drop (length s - Z.to_nat n) s.
Proof.
  intros Hn. unfold last_chars, slice_from, len.
  destruct (Z.ltb_spec (- n) 0) as [_|H]; [|lia].
  f_equal. lia.
Qed.

Lemma last_chars_suffix n s : last_chars n s `suffix_of` s.
Proof.
  unfold last_chars, slice_from. destruct (- n <? 0); apply suffix_drop.
Qed.

Lemma last_chars_len n s : 0 < n -> len (last_chars n s) = Z.min n (len s).
Proof.
  intros Hn. rewrite last_chars_pos by exact Hn.
  unfold len. rewrite length_drop. lia.
Qed.

Lemma last_chars_short n s : len s <= n -> 0 < n -> last_chars n s = s.
Proof.
  intros Hs Hn. rewrite last_chars_pos by exact Hn.
  unfold len in Hs. replace (length s - Z.to_nat n)%nat with 0%nat by lia.
  reflexivity.
Qed.

End StringFacts.

Example strip_ex : strip "  hello world. " = "hello world.".
Proof. reflexivity. Qed.

Example last_chars_ex : last_chars 10 "abcdefghij klm" = "efghij klm".
Proof. reflexivity. Qed.

Example last_chars_zero : last_chars 0 "abc" = "abc".
Proof. reflexivity. Qed.

Example last_chars_neg : last_chars (-1) "abc" = "bc".
Proof. reflexivity. Qed.

Example contains_ex : contains dots "HELLO..." = true.
Proof. reflexivity. Qed.

Example upper_ex : upper_ascii "hello wait... ok" = "HELLO WAIT... OK".
Proof. reflexivity. Qed.

Example remove_dots_ex : remove_dots "a....b..." = "a.b".
Proof. reflexivity. Qed.

(** ** Substrings and the "..." marker *)

Section MarkerFacts.

Implicit Types p s t : str.

Lemma starts_with_iff p s : starts_with p s = true <-> exists r, s = p ++ r.
Proof.
  revert s. induction p as [|a p IH]; intros s; simpl.
  - split; [intros _; now exists s | reflexivity].
  - destruct s as [|b s]; simpl.
    + split; [discriminate | intros [r Hr]; discriminate].
    + rewrite andb_true_iff, Ascii.eqb_eq, IH. split.
      * intros [-> [r ->]]. now exists r.
      * intros [r Hr]. inversion Hr; subst. split; [reflexivity | now exists r].
Qed.

Lemma contains_iff p s :
  contains p s = true <-> exists a b, s = a ++ p ++ b.
Proof.
  induction s as [|c s IH].
  - simpl. rewrite orb_false_r, starts_with_iff. split.
    + intros [r Hr]. now exists [], r.
    + intros (a & b & H). destruct a; simpl in H; [now exists b|discriminate].
  - cbn [contains]. rewrite orb_true_iff, starts_with_iff, IH. split.
    + intros [[r Hr] | (a & b & ->)].
      * now exists [], r.
      * now exists (c :: a), b.
    + intros (a & b & H). destruct a as [|x a]; simpl in H.
      * left. now exists b.
      * right. inversion H; subst. now exists a, b.
Qed.

Lemma contains_marker_suffix s : contains dots (s ++ dots) = true.
Proof. apply contains_iff. exists s, []. now rewrite app_nil_r. Qed.

(** What is used of [str.upper]: it works on the characters one by one and
    leaves a full stop as it is, so it keeps the marker where it is. *)
Lemma contains_upper (upper : str -> str) s :
  (forall a b, upper (a ++ dots ++ b) = upper a ++ dots ++ upper b) ->
  contains dots s = true -> contains dots (upper s) = true.
Proof.
  intros Hup. rewrite !contains_iff. intros (a & b & ->).
  exists (upper a), (upper b). apply Hup.
Qed.

Lemma upper_ascii_dots (a b : str) :
  upper_ascii (a ++ dots ++ b) = upper_ascii a ++ dots ++ upper_ascii b.
Proof. unfold upper_ascii. now rewrite !map_app. Qed.

Lemma lstrip_app_nonspace s c t :
  is_space c = false -> lstrip (s ++ c :: t) = lstrip s ++ c :: t.
Proof.
  intros Hc. induction s as [|a s IH]; simpl.
  - now rewrite Hc.
  - destruct (is_space a); [exact IH | reflexivity].
Qed.

Lemma rstrip_app_nonspace s c t :
  is_space c = false -> rstrip (s ++ c :: t) = s ++ c :: rstrip t.
Proof.
  intros Hc. induction s as [|a s IH]; simpl.
  - destruct (rstrip t); [now rewrite Hc | reflexivity].
  - rewrite IH. now destruct s.
Qed.

Lemma lstrip_dots s t : lstrip (s ++ dots ++ t) = lstrip s ++ dots ++ t.
Proof.
  exact (lstrip_app_nonspace s "."%char ("."%char :: "."%char :: t) eq_refl).
Qed.

Lemma rstrip_dots s t : rstrip (s ++ dots ++ t) = s ++ dots ++ rstrip t.
Proof.
  replace (s ++ dots ++ t) with ((s ++ ["."%char; "."%char]) ++ "."%char :: t)
    by (now rewrite <- app_assoc).
  rewrite rstrip_app_nonspace by reflexivity. now rewrite <- app_assoc.
Qed.

Lemma contains_strip s : contains dots s = true -> contains dots (strip s) = true.
Proof.
  rewrite !contains_iff. intros (a & b & ->). unfold strip.
  rewrite lstrip_dots, rstrip_dots. now exists (lstrip a), (rstrip b).
Qed.

Lemma app_tail_neq s t : t <> [] -> s <> s ++ t.
Proof.
  intros Ht H. apply (f_equal (@length _)) in H. rewrite length_app in H.
  destruct t; [congruence | simpl in H; lia].
Qed.

Lemma app_head_neq s t : s <> [] -> t <> s ++ t.
Proof.
  intros Hs H. apply (f_equal (@length _)) in H. rewrite length_app in H.
  destruct s; [congruence | simpl in H; lia].
Qed.

End MarkerFacts.

(** ** The display buffer of live_translate.py *)

Section DisplayFacts.

Import Translate.

Implicit Types (s : State) (evs : list TranslatedItem) (e : TranslatedItem).

Lemma drain_app evs1 evs2 s : drain (evs1 ++ evs2) s = drain evs2 (drain evs1 s).
Proof. revert s. induction evs1 as [|e r IH]; intros s; simpl; [reflexivity | apply IH]. Qed.

Lemma process_item_config e s : config (process_item e s) = config s.
Proof. unfold process_item. destruct (is_final (orig e)); reflexivity. Qed.

Lemma drain_config evs s : config (drain evs s) = config s.
Proof.
  revert s. induction evs as [|e r IH]; intros s; simpl; [reflexivity|].
  rewrite IH. apply process_item_config.
Qed.

Lemma drain_text_buffer evs s :
  text_buffer (drain evs s) = text_buffer s ++ appended evs.
Proof.
  revert s. induction evs as [|e r IH]; intros s; simpl.
  - now rewrite app_nil_r.
  - rewrite IH. unfold process_item.
    destruct (is_final (orig e)); simpl.
    + now rewrite <- !app_assoc.
    + reflexivity.
Qed.

Lemma compose_pending s :
  partial_text s <> [] ->
  compose s = strip (text_buffer s) ++ nl ++ strip (partial_text s).
Proof. unfold compose. destruct (partial_text s); [congruence | reflexivity]. Qed.

Lemma compose_no_pending s :
  partial_text s = [] -> compose s = strip (text_buffer s).
Proof. unfold compose. intros ->. reflexivity. Qed.

Lemma compose_len_ge s : len (strip (text_buffer s)) <= len (compose s).
Proof.
  unfold compose. destruct (truthy (partial_text s)); [|lia].
  rewrite len_app. pose proof (len_nonneg (nl ++ strip (partial_text s))). lia.
Qed.

Lemma trim_and_show_config s : config (trim_and_show s) = config s.
Proof.
  unfold trim_and_show.
  destruct (len (compose s) >? _); [|reflexivity].
  destruct (len (text_buffer s) >? _); reflexivity.
Qed.

(** What [trim_and_show] leaves in [label] and in [text_buffer], for a
    positive limit. *)
Lemma trim_and_show_spec s :
  let m := max_buffer_length (config s) in
  0 < m ->
  label (trim_and_show s)
    = (if len (compose s) >? m
       then drop (length (compose s) - Z.to_nat m) (compose s) else compose s)
  /\ text_buffer (trim_and_show s)
    = (if (len (compose s) >? m) && (len (text_buffer s) >? m)
       then drop (length (text_buffer s) - Z.to_nat m) (text_buffer s)
       else text_buffer s).
Proof.
  intros m Hm. unfold trim_and_show. fold m.
  destruct (len (compose s) >? m) eqn:Hd; simpl.
  - destruct (len (text_buffer s) >? m) eqn:Hb; simpl;
      rewrite ?last_chars_pos by exact Hm; auto.
  - auto.
Qed.

Lemma appended_app evs1 evs2 : appended (evs1 ++ evs2) = appended evs1 ++ appended evs2.
Proof.
  induction evs1 as [|e r IH]; simpl; [reflexivity|].
  now rewrite IH, app_assoc.
Qed.

Lemma trim_and_show_suffix s : text_buffer (trim_and_show s) `suffix_of` text_buffer s.
Proof.
  unfold trim_and_show.
  destruct (len (compose s) >? _); [|reflexivity].
  destruct (len (text_buffer s) >? _); [apply last_chars_suffix | reflexivity].
Qed.

(** Whatever the limit, a call of [update_gui] leaves a tail of the old
    buffer followed by what the final events of the batch add. *)
Lemma update_gui_suffix s :
  text_buffer (update_gui s)
    `suffix_of` text_buffer s ++ appended (items (translated_queue s)).
Proof.
  unfold update_gui. rewrite <- drain_text_buffer.
  apply (trim_and_show_suffix
           (set_translated_queue (mkQueue (maxsize (translated_queue s)) [])
              (drain (items (translated_queue s)) s))).
Qed.

Lemma ticks_suffix (batches : list (list TranslatedItem)) s :
  text_buffer (ticks batches s)
    `suffix_of` text_buffer s ++ appended (concat batches).
Proof.
  revert s. induction batches as [|b r IH]; intros s; simpl.
  - now rewrite app_nil_r.
  - rewrite appended_app, app_assoc.
    etransitivity; [apply IH|].
    apply suffix_app.
    apply (update_gui_suffix
             (set_translated_queue (mkQueue (maxsize (translated_queue s)) b) s)).
Qed.

End DisplayFacts.

Section DisplayClaims.

Import Translate.

Implicit Types (s : State) (evs : list TranslatedItem).

(** C1, as stated, fails: after the partial event "hi" the pending text kept
    in [partial_text] is not "hi" (it is "hi..."). *)
Lemma partial_pending_not_exact :
  partial_text (process_item (partial_item "hi") (init_state (mkConfig 200 100)))
  <> lit "hi".
Proof. vm_compute. discriminate. Qed.

(** C1 (amended): for every sequence of events [evs] already processed, a
    partial event sets [partial_text] to that event's translated text
    followed by the marker "...", whatever was pending before, and leaves
    [text_buffer] as it was; after two partial events in a row the pending
    text shown is the second text with its marker alone, below the
    committed text.  In the optimised caption variant, which keeps one
    buffer only, a partial item replaces the whole of [text_buffer]: after
    two partial items in a row the buffer is the second item alone. *)
Theorem partial_replaces_pending s evs (txt1 t1 txt2 t2 : str) :
  let p1 := mkTranslated (mkRecognized txt1 false) t1 in
  let p2 := mkTranslated (mkRecognized txt2 false) t2 in
  let s0 := drain evs s in
  let s1 := drain (evs ++ [p1]) s in
  let s2 := drain (evs ++ [p1; p2]) s in
  partial_text s1 = t1 ++ dots /\ text_buffer s1 = text_buffer s0
  /\ partial_text s2 = t2 ++ dots /\ text_buffer s2 = text_buffer s0
  /\ compose s2 = strip (text_buffer s0) ++ nl ++ strip (t2 ++ dots)
  /\ (forall (max_length mx : Z) (tb lb : str) (rest : list str),
        let g := CaptionsOptimised.mkGui tb
                   (mkQueue mx ((t1 ++ dots) :: (t2 ++ dots) :: rest)) lb in
        let g2 := CaptionsOptimised.update_gui max_length
                    (CaptionsOptimised.update_gui max_length g) in
        CaptionsOptimised.text_buffer g2 = t2 ++ dots).
Proof.
  intros p1 p2 s0 s1 s2. subst s1 s2. rewrite !drain_app. fold s0.
  simpl. unfold process_item; simpl.
  repeat split.
  - rewrite compose_pending; simpl; [reflexivity|].
    destruct t2; discriminate.
  - intros max_length mx tb lb rest.
    unfold CaptionsOptimised.update_gui, empty, get. simpl.
    now rewrite !contains_marker_suffix.
Qed.

(** Scenario A of the specification: two partial events and the final event
    of one utterance leave "hello world." on screen and nothing pending. *)
Example scenario_a :
  let s := set_translated_queue
             (mkQueue 0 [partial_item "hello"; partial_item "hello world";
                         final_item "hello world."])
             (init_state (mkConfig 200 100)) in
  label (update_gui s) = lit "hello world."
  /\ partial_text (update_gui s) = []
  /\ text_buffer (update_gui s) = lit " hello world.".
Proof. vm_compute. repeat split. Qed.

(** C2: a final event appends the separator and the event's text to
    [text_buffer], once, and leaves [partial_text] empty; over a whole run
    of events [text_buffer] grows by exactly one copy of each final event's
    text, in order, and by nothing else; over successive calls of
    [update_gui] the buffer is always a tail of that text, so no event's
    text is ever committed twice. *)
Theorem final_appends_once s evs (txt t : str) :
  let f := mkTranslated (mkRecognized txt true) t in
  text_buffer (process_item f s) = text_buffer s ++ sep ++ t
  /\ partial_text (process_item f s) = []
  /\ text_buffer (drain evs s) = text_buffer s ++ appended evs
  /\ text_buffer (drain (evs ++ [f]) s) = text_buffer (drain evs s) ++ sep ++ t
  /\ partial_text (drain (evs ++ [f]) s) = []
  /\ appended (evs ++ [f]) = appended evs ++ sep ++ t
  /\ (forall batches : list (list TranslatedItem),
        text_buffer (ticks batches s)
          `suffix_of` text_buffer s ++ appended (concat batches)).
Proof.
  intros f. rewrite !drain_app. simpl. unfold process_item; simpl.
  repeat split.
  - apply drain_text_buffer.
  - rewrite appended_app. simpl. now rewrite app_nil_r.
  - intros batches. apply ticks_suffix.
Qed.

(** C3, as stated, fails: with a limit of 10, the final event "abcdefghij"
    on the initial state leaves 11 characters in [text_buffer]. *)
Lemma committed_exceeds_limit :
  let s := set_translated_queue (mkQueue 0 [final_item "abcdefghij"])
             (init_state (mkConfig 10 100)) in
  ~ (len (text_buffer (update_gui s)) <= max_buffer_length (config s)).
Proof. vm_compute. intros H. apply H. reflexivity. Qed.

(** C4, as stated, fails: the committed text does not become "defghijklm". *)
Lemma scenario_b_not_defghijklm :
  let s := set_translated_queue (mkQueue 0 [final_item "klm"])
             (set_text_buffer "abcdefghij" (init_state (mkConfig 10 100))) in
  text_buffer (update_gui s) <> lit "defghijklm".
Proof. vm_compute. discriminate. Qed.

(** C4 (amended): with a limit of 10 and "abcdefghij" committed, the final
    event "klm" makes the committed text "efghij klm", the last 10
    characters of "abcdefghij klm" (the separator is one space). *)
Theorem scenario_b_committed :
  let s := set_translated_queue (mkQueue 0 [final_item "klm"])
             (set_text_buffer "abcdefghij" (init_state (mkConfig 10 100))) in
  text_buffer (update_gui s) = lit "efghij klm"
  /\ text_buffer (update_gui s) = last_chars 10 "abcdefghij klm"
  /\ label (update_gui s) = lit "efghij klm"
  /\ partial_text (update_gui s) = [].
Proof. vm_compute. repeat split. Qed.

End DisplayClaims.

Section WindowClaim.

Import Translate.

Lemma drop_tail_len (n : Z) (t : str) :
  0 < n -> n < len t -> len (drop (length t - Z.to_nat n) t) = n.
Proof. unfold len. intros Hn Ht. rewrite length_drop. lia. Qed.

(** live_captions.py cuts the text shown and nothing else. *)
Lemma captions_window (m : Z) (g : Captions.Gui) :
  0 < m ->
  empty (Captions.transcript_queue g) = false ->
  len (Captions.label (Captions.update_gui m g)) <= m
  /\ Captions.text_buffer g
       `prefix_of` Captions.text_buffer (Captions.update_gui m g).
Proof.
  intros Hm Hq. unfold Captions.update_gui. rewrite Hq.
  destruct g as [tb [mx [|x r]] lb]; [discriminate|].
  unfold get; simpl.
  destruct (contains dots x); simpl; rewrite last_chars_len by exact Hm.
  - split; [lia | reflexivity].
  - split; [lia | now exists (sep ++ x)].
Qed.

(** C3 (amended): with a positive limit, after every call of [update_gui]
    the text shown has at most [max_buffer_length] characters and is the
    tail of the composed text; the committed text, once stripped of
    surrounding white space, has at most [max_buffer_length] characters;
    [text_buffer] is cut only when the composed text exceeds the limit (and
    the buffer does too): when the composed text fits, the buffer is left
    exactly as the events made it, whatever its length; when it is cut, it
    is cut to exactly its trailing [max_buffer_length] characters, oldest
    text dropped first.  In live_captions.py only the text shown is cut:
    it has at most [max_buffer_length] characters and [text_buffer] is
    never shortened. *)
Theorem update_gui_window (s : State) :
  let m := max_buffer_length (config s) in
  let d := drain (items (translated_queue s)) s in
  let s' := update_gui s in
  0 < m ->
  len (label s') <= m
  /\ label s' `suffix_of` compose d
  /\ len (strip (text_buffer s')) <= m
  /\ text_buffer s' `suffix_of` text_buffer d
  /\ (text_buffer s' = text_buffer d
      \/ (text_buffer s' = drop (length (text_buffer d) - Z.to_nat m) (text_buffer d)
          /\ len (text_buffer s') = m))
  /\ (m < len (compose d) -> len (text_buffer s') <= m)
  /\ (forall g : Captions.Gui,
        empty (Captions.transcript_queue g) = false ->
        len (Captions.label (Captions.update_gui m g)) <= m
        /\ Captions.text_buffer g
             `prefix_of` Captions.text_buffer (Captions.update_gui m g))
  /\ (len (compose d) <= m ->
      text_buffer s' = text_buffer d /\ label s' = compose d)
  /\ (len (text_buffer d) <= m -> text_buffer s' = text_buffer d)
  /\ (m < len (compose d) ->
      m < len (text_buffer d) ->
      text_buffer s' = drop (length (text_buffer d) - Z.to_nat m) (text_buffer d)
      /\ len (text_buffer s') = m)
  /\ (m < len (compose d) ->
      label s' = drop (length (compose d) - Z.to_nat m) (compose d)
      /\ len (label s') = m).
Proof.
  intros m d s' Hm.
  set (s2 := set_translated_queue (mkQueue (maxsize (translated_queue s)) []) d).
  assert (Hcfg : max_buffer_length (config s2) = m).
  { unfold s2, d. simpl. now rewrite drain_config. }
  assert (Hs' : s' = trim_and_show s2) by reflexivity.
  assert (Hc : compose s2 = compose d) by reflexivity.
  assert (Hb : text_buffer s2 = text_buffer d) by reflexivity.
  destruct (trim_and_show_spec s2) as [Hl Ht]; [rewrite Hcfg; exact Hm|].
  rewrite Hcfg, Hc in Hl. rewrite Hcfg, Hc, Hb in Ht. rewrite <- Hs' in Hl, Ht.
  pose proof (compose_len_ge d) as Hge.
  pose proof (strip_len_le (text_buffer d)) as Hsd.
  pose proof (strip_len_le (text_buffer s')) as Hss.
  assert (Hcap := fun g => captions_window m g Hm).
  destruct (Z.gtb_spec (len (compose d)) m) as [Hbig|Hsmall].
  - pose proof (drop_tail_len m (compose d) Hm Hbig) as Hlen'.
    rewrite <- Hl in Hlen'.
    assert (Hsuf : label s' `suffix_of` compose d).
    { rewrite Hl. apply suffix_drop. }
    destruct (Z.gtb_spec (len (text_buffer d)) m) as [Hbb|Hbs]; simpl in Ht.
    + pose proof (drop_tail_len m (text_buffer d) Hm Hbb) as Hlen.
      rewrite <- Ht in Hlen.
      split; [lia|]. split; [exact Hsuf|]. split; [lia|].
      split; [rewrite Ht; apply suffix_drop|].
      split; [right; split; [exact Ht | exact Hlen]|].
      split; [intros _; lia|]. split; [exact Hcap|].
      split; [intros; lia|]. split; [intros; lia|].
      split; [intros _ _; split; [exact Ht | exact Hlen]|].
      intros _. split; [exact Hl | exact Hlen'].
    + assert (Hfit : len (text_buffer s') <= m) by (rewrite Ht; lia).
      split; [lia|]. split; [exact Hsuf|]. split; [lia|].
      split; [rewrite Ht; reflexivity|].
      split; [now left|].
      split; [intros _; rewrite Ht; lia|]. split; [exact Hcap|].
      split; [intros; lia|]. split; [intros _; exact Ht|].
      split; [intros; lia|].
      intros _. split; [exact Hl | exact Hlen'].
  - simpl in Ht.
    split; [rewrite Hl; lia|]. split; [rewrite Hl; reflexivity|].
    split; [rewrite Ht; lia|].
    split; [rewrite Ht; reflexivity|].
    split; [now left|].
    split; [intros; lia|]. split; [exact Hcap|].
    split; [intros _; split; [exact Ht | exact Hl]|].
    split; [intros _; exact Ht|].
    split; intros; lia.
Qed.

Lemma update_gui_window_witness :
  let s := set_translated_queue (mkQueue 0 [final_item "abcdefghij"; partial_item "kl"])
             (init_state (mkConfig 10 100)) in
  0 < max_buffer_length (config s)
  /\ len (label (update_gui s)) <= 10
  /\ len (strip (text_buffer (update_gui s))) <= 10.
Proof.
  intros s. split; [reflexivity|].
  pose proof (update_gui_window s eq_refl) as H.
  split; [exact (proj1 H) | exact (proj1 (proj2 (proj2 H)))].
Defined.

End WindowClaim.

Section EmptyTextClaim.

Import Translate Threads.

(** C7, as stated, fails: an empty partial event reaching [update_gui]
    changes the display state (the pending text becomes "..."). *)
Lemma empty_partial_changes_state :
  let s := set_translated_queue (mkQueue 0 [partial_item []])
             (init_state (mkConfig 200 100)) in
  ~ (text_buffer (update_gui s) = text_buffer s
     /\ partial_text (update_gui s) = partial_text s).
Proof. vm_compute. intros [_ H]. discriminate H. Qed.

(** C7 (amended): an empty recognizer result, partial or final, is
    suppressed by the capture stage: no event is put on the queue, the
    shared state is unchanged, and every event that capture does emit has a
    non-empty text.  [update_gui] itself has no such guard: an empty final
    event appends one separator to [text_buffer] (which leaves the stripped
    committed text as it was) and clears [partial_text]; an empty partial
    event sets [partial_text] to the marker "..." and leaves [text_buffer]
    as it was. *)
Theorem empty_text_events (raw txt : str) (s : State) :
  strip raw = [] ->
  capture_event (FinalResult raw) = None
  /\ capture_event (PartialResult raw) = None
  /\ capture_step (Returns (FinalResult raw)) s CapRecord = Some (s, CapHead)
  /\ capture_step (Returns (PartialResult raw)) s CapRecord = Some (s, CapHead)
  /\ (forall r, match capture_event r with
                | Some item => truthy (text item) = true
                | None => True
                end)
  /\ (let s' := process_item (mkTranslated (mkRecognized txt true) []) s in
      text_buffer s' = text_buffer s ++ sep
      /\ strip (text_buffer s') = strip (text_buffer s)
      /\ partial_text s' = [])
  /\ (let s' := process_item (mkTranslated (mkRecognized txt false) []) s in
      text_buffer s' = text_buffer s /\ partial_text s' = dots).
Proof.
  intros Hraw. unfold capture_step, capture_event. rewrite Hraw. simpl.
  repeat split.
  - intros [r|r]; destruct (strip r) eqn:E; simpl; try exact I; reflexivity.
  - now apply strip_snoc_space.
Qed.

Lemma empty_text_events_witness :
  strip "  " = []
  /\ capture_event (FinalResult "  ") = None
  /\ capture_event (PartialResult "  ") = None.
Proof.
  split; [reflexivity|].
  pose proof (empty_text_events "  " "hello" (init_state (mkConfig 200 100)) eq_refl) as H.
  split; [exact (proj1 H) | exact (proj1 (proj2 H))].
Defined.

End EmptyTextClaim.

(** ** Queues *)

Section QueueFacts.

Context {A : Type}.

Implicit Types (q : Queue A) (x : A) (xs : list A).

Lemma put_unbounded x q :
  maxsize q <= 0 -> put x q = Some (mkQueue (maxsize q) (items q ++ [x])).
Proof.
  intros H. unfold put, full.
  destruct (Z.ltb_spec 0 (maxsize q)); [lia | reflexivity].
Qed.

Lemma put_items x q q' : put x q = Some q' -> items q' = items q ++ [x].
Proof. unfold put. destruct (full q); [discriminate|]. now intros [= <-]. Qed.

Lemma put_maxsize x q q' : put x q = Some q' -> maxsize q' = maxsize q.
Proof. unfold put. destruct (full q); [discriminate|]. now intros [= <-]. Qed.

Lemma get_items x q q' : get q = Some (x, q') -> items q = x :: items q'.
Proof. unfold get. destruct (items q); [discriminate|]. now intros [= <- <-]. Qed.

Lemma put_all_unbounded xs q :
  maxsize q <= 0 -> put_all xs q = Some (mkQueue (maxsize q) (items q ++ xs)).
Proof.
  revert q. induction xs as [|x r IH]; intros q H; simpl.
  - rewrite app_nil_r. now destruct q.
  - rewrite put_unbounded by exact H. rewrite IH by exact H. simpl.
    now rewrite <- app_assoc.
Qed.

Lemma get_n_all (m : Z) xs : get_n (length xs) (mkQueue m xs) = Some (xs, mkQueue m []).
Proof.
  induction xs as [|x r IH]; simpl; [reflexivity|].
  unfold get; simpl. now rewrite IH.
Qed.

End QueueFacts.

(** ** The translation stage *)

Section TranslationClaim.

Import Translate Threads.




End TranslationClaim.

(** ** The channels between the stages *)

Section ChannelClaim.

Import Translate Threads.

Implicit Types (p : Pipeline) (tr : Translator).

Lemma run_app tr (a b : list Action) p :
  run tr (a ++ b) p
  = match run tr a p with Some p' => run tr b p' | None => None end.
Proof.
  revert p. induction a as [|x r IH]; intros p; simpl; [reflexivity|].
  destruct (step tr x p); [apply IH | reflexivity].
Qed.

Lemma capture_head_step tr o p :
  capture_pc p = CapHead ->
  running (st p) = true ->
  step tr (ACapture o) p
  = Some (mkPipeline (st p) CapRecord (translate_pc p) (main_pc p) (timer p)).
Proof. intros Hpc Hrun. unfold step, capture_step. now rewrite Hpc, Hrun. Qed.

Lemma capture_record_step tr r item p :
  capture_pc p = CapRecord ->
  capture_event r = Some item ->
  maxsize (recognized_queue (st p)) <= 0 ->
  step tr (ACapture (Returns r)) p
  = Some (mkPipeline
            (set_recognized_queue
               (mkQueue (maxsize (recognized_queue (st p)))
                        (items (recognized_queue (st p)) ++ [item])) (st p))
            CapHead (translate_pc p) (main_pc p) (timer p)).
Proof.
  intros Hpc Hev Hmax. unfold step, capture_step.
  rewrite Hpc, Hev, put_unbounded by exact Hmax. reflexivity.
Qed.

Lemma rounds_grow tr (n : nat) p :
  capture_pc p = CapHead ->
  running (st p) = true ->
  maxsize (recognized_queue (st p)) = 0 ->
  exists p', run tr (rounds n) p = Some p'
    /\ length (items (recognized_queue (st p')))
       = (length (items (recognized_queue (st p))) + n)%nat.
Proof.
  revert p. induction n as [|n IH]; intros p Hpc Hrun Hmax.
  - exists p. split; [reflexivity | lia].
  - change (rounds (S n)) with (hear_a ++ rounds n). rewrite run_app.
    unfold hear_a. cbn [run].
    rewrite capture_head_step by assumption.
    erewrite capture_record_step; [|reflexivity|reflexivity|simpl; lia].
    cbn [st translate_pc main_pc timer].
    match goal with
    | |- context [run tr (rounds n) ?q] =>
        destruct (IH q) as (p' & Hr & Hl); [reflexivity | exact Hrun | exact Hmax |]
    end.
    exists p'. split; [exact Hr|].
    rewrite Hl. simpl. rewrite length_app. simpl. lia.
Qed.

(** C8, as stated, fails: [recognized_queue] has no fixed finite capacity.
    Whatever bound is proposed, some schedule from the initial state makes
    the queue longer. *)
Lemma recognized_queue_unbounded :
  ~ (exists cap : Z, forall acts p,
        run identity acts (start (mkConfig 200 100)) = Some p ->
        qsize (recognized_queue (st p)) <= cap).
Proof.
  intros (cap & Hcap).
  destruct (rounds_grow identity (S (Z.to_nat cap)) (start (mkConfig 200 100)))
    as (p' & Hr & Hl); try reflexivity.
  specialize (Hcap _ _ Hr). unfold qsize in Hcap. rewrite Hl in Hcap.
  simpl in Hcap. lia.
Qed.

End ChannelClaim.

Section ChannelClaimAmended.

Import Translate Threads.

(** C8 (amended): for every frame, the capture stage puts at most one event
    on [recognized_queue] and none on [translated_queue]; both channels are
    made by [Queue()], which has no capacity bound ([maxsize] is 0 and [put]
    never blocks), and are order-preserving: [put] adds at the tail, [get]
    takes from the head, and what was put is received in the same order. *)
Theorem channels_fifo (o : Outcome Recognized) (s s' : State) (pc' : CapturePc)
    (cfg : Config) :
  capture_step o s CapRecord = Some (s', pc') ->
  (items (recognized_queue s') = items (recognized_queue s)
   \/ exists item,
        items (recognized_queue s') = items (recognized_queue s) ++ [item])
  /\ translated_queue s' = translated_queue s
  /\ maxsize (recognized_queue (init_state cfg)) = 0
  /\ maxsize (translated_queue (init_state cfg)) = 0
  /\ (forall (A : Type) (q : Queue A) (x : A),
        maxsize q <= 0 ->
        exists q', put x q = Some q' /\ items q' = items q ++ [x])
  /\ (forall (A : Type) (q q' : Queue A) (x : A),
        get q = Some (x, q') -> items q = x :: items q')
  /\ (forall (A : Type) (xs : list A),
        exists q : Queue A,
          put_all xs new = Some q
          /\ get_n (length xs) q = Some (xs, new)).
Proof.
  intros Hstep. repeat split.
  - unfold capture_step in Hstep. destruct o as [r|].
    + destruct (capture_event r) as [item|].
      * destruct (put item (recognized_queue s)) as [q|] eqn:Hput;
          [|discriminate].
        inversion Hstep; subst. right. exists item. simpl.
        now apply put_items.
      * inversion Hstep; subst. now left.
    + inversion Hstep; subst. now left.
  - unfold capture_step in Hstep. destruct o as [r|].
    + destruct (capture_event r) as [item|].
      * destruct (put item (recognized_queue s)); [|discriminate].
        now inversion Hstep.
      * now inversion Hstep.
    + now inversion Hstep.
  - intros A q x Hq. rewrite put_unbounded by exact Hq. eexists.
    split; reflexivity.
  - intros A q q' x. apply get_items.
  - intros A xs. eexists. split.
    + apply put_all_unbounded. simpl. lia.
    + simpl. apply get_n_all.
Qed.

Lemma channels_fifo_witness :
  let s := init_state (mkConfig 200 100) in
  let s' := set_recognized_queue (mkQueue 0 [mkRecognized "a" true]) s in
  capture_step (Returns (FinalResult " a ")) s CapRecord = Some (s', CapHead)
  /\ translated_queue s' = translated_queue s.
Proof.
  intros s s'. split; [reflexivity|].
  exact (proj1 (proj2 (channels_fifo (Returns (FinalResult " a ")) s s' CapHead
                         (mkConfig 200 100) eq_refl))).
Defined.

End ChannelClaimAmended.

(** ** Shutdown *)

Section ShutdownFacts.

Import Translate Threads.

Implicit Types (p : Pipeline) (s : State) (tr : Translator).

Lemma process_item_frame e s :
  running (process_item e s) = running s
  /\ recognized_queue (process_item e s) = recognized_queue s
  /\ translated_queue (process_item e s) = translated_queue s.
Proof. unfold process_item. destruct (is_final (orig e)); auto. Qed.

Lemma drain_frame evs s :
  running (drain evs s) = running s
  /\ recognized_queue (drain evs s) = recognized_queue s
  /\ translated_queue (drain evs s) = translated_queue s.
Proof.
  revert s. induction evs as [|e r IH]; intros s; simpl; [auto|].
  destruct (IH (process_item e s)) as (-> & -> & ->).
  apply process_item_frame.
Qed.

Lemma trim_and_show_frame s :
  running (trim_and_show s) = running s
  /\ recognized_queue (trim_and_show s) = recognized_queue s
  /\ translated_queue (trim_and_show s) = translated_queue s.
Proof.
  unfold trim_and_show.
  destruct (len (compose s) >? _); [|auto].
  destruct (len (text_buffer s) >? _); auto.
Qed.

Lemma update_gui_frame s :
  running (update_gui s) = running s
  /\ recognized_queue (update_gui s) = recognized_queue s
  /\ maxsize (translated_queue (update_gui s)) = maxsize (translated_queue s).
Proof.
  unfold update_gui.
  destruct (trim_and_show_frame
              (set_translated_queue (mkQueue (maxsize (translated_queue s)) [])
                 (drain (items (translated_queue s)) s))) as (-> & -> & ->).
  simpl. destruct (drain_frame (items (translated_queue s)) s) as (-> & -> & _).
  auto.
Qed.

(** Case analysis of one step. *)
Ltac step_cases H :=
  match type of H with
  | step _ ?a ?p = Some _ =>
      destruct p as [s cpc tpc mpc tm]; destruct a as [o| | | |];
      unfold step, capture_step, translate_step in H; cbn [st capture_pc translate_pc main_pc timer] in H;
      repeat (match type of H with
              | context [match ?x with _ => _ end] =>
                  lazymatch x with
                  | context [match _ with _ => _ end] => fail
                  | _ => destruct x eqn:?
                  end
              end; cbv beta iota in H);
      try discriminate; inversion H; subst; clear H; simpl in *
  end.

Lemma step_running_false tr a p p' :
  step tr a p = Some p' -> running (st p) = false -> running (st p') = false.
Proof.
  intros H Hr. step_cases H; try assumption; try reflexivity; try congruence;
    rewrite (proj1 (update_gui_frame s)); assumption.
Qed.

Lemma step_capture_exited tr a p p' :
  step tr a p = Some p' -> capture_pc p = CapExited -> capture_pc p' = CapExited.
Proof. intros H Hc. step_cases H; congruence. Qed.

Lemma step_unbounded tr a p p' :
  step tr a p = Some p' -> unbounded_queues p -> unbounded_queues p'.
Proof.
  intros H [Hr Ht]. unfold unbounded_queues in *.
  step_cases H; try (split; assumption);
    repeat match goal with
      | E : put _ _ = Some _ |- _ => apply put_maxsize in E
      | E : get _ = Some _ |- _ =>
          unfold get in E; destruct (items _); [discriminate|]; inversion E; subst; clear E
      end; simpl in *; try (split; congruence);
    destruct (update_gui_frame s) as (_ & -> & ->); split; assumption.
Qed.

Lemma step_joined tr a p p' :
  step tr a p = Some p' -> joined p -> joined p'.
Proof.
  intros H Hj. unfold joined in *.
  step_cases H; try exact I; try tauto; try reflexivity;
    try (destruct mpc; simpl in *; try tauto; try congruence;
         repeat match goal with H : _ /\ _ |- _ => destruct H end;
         repeat split; congruence).
  split; [assumption | now destruct cpc].
Qed.

Lemma step_rank tr a p p' :
  step tr a p = Some p' ->
  running (st p) = false ->
  (tr_rank (translate_pc p') + (if is_translate a then 1 else 0)
   <= tr_rank (translate_pc p))%nat.
Proof. intros H Hr. step_cases H; try lia; congruence. Qed.

Lemma translate_enabled tr p :
  unbounded_queues p ->
  translate_alive (translate_pc p) = true ->
  exists p', step tr ATranslate p = Some p'.
Proof.
  intros [_ Ht] Ha. destruct p as [s cpc tpc mpc tm]. simpl in *.
  unfold step, translate_step; simpl.
  destruct tpc; try discriminate.
  - destruct (running s); eexists; reflexivity.
  - unfold empty, get. destruct (items (recognized_queue s)) as [|item rest].
    + eexists; reflexivity.
    + destruct (tr (text item)) as [t|].
      * rewrite put_unbounded by lia. eexists; reflexivity.
      * eexists; reflexivity.
Qed.

Lemma capture_exited_stuck tr o p :
  capture_pc p = CapExited -> step tr (ACapture o) p = None.
Proof. intros H. unfold step, capture_step. now rewrite H. Qed.

Lemma tick_stops tr p p' :
  running (st p) = false -> step tr ATick p = Some p' -> timer p' = false.
Proof.
  intros Hr H. unfold step in H.
  destruct (main_pc p); try discriminate.
  destruct (timer p); [|discriminate].
  inversion H; subst; clear H. cbn [timer].
  rewrite (proj1 (update_gui_frame (st p))). exact Hr.
Qed.

(** Invariants along a schedule. *)
Lemma run_shutdown tr acts p p' :
  run tr acts p = Some p' ->
  running (st p) = false ->
  capture_pc p = CapExited ->
  unbounded_queues p ->
  joined p ->
  running (st p') = false /\ capture_pc p' = CapExited
  /\ unbounded_queues p' /\ joined p'
  /\ (tr_rank (translate_pc p') + translate_steps acts
      <= tr_rank (translate_pc p))%nat.
Proof.
  revert p. induction acts as [|a r IH]; intros p Hrun Hr Hc Hu Hj; simpl in *.
  - inversion Hrun; subst. repeat split; try assumption; try apply Hu. lia.
  - destruct (step tr a p) as [p1|] eqn:Hs; [|discriminate].
    destruct (IH p1 Hrun) as (H1 & H2 & H3 & H4 & H5).
    + eapply step_running_false; eassumption.
    + eapply step_capture_exited; eassumption.
    + eapply step_unbounded; eassumption.
    + eapply step_joined; eassumption.
    + pose proof (step_rank tr a p p1 Hs Hr). repeat split; try assumption; try apply H3. lia.
Qed.

Lemma reachable_inv tr cfg p :
  reachable tr cfg p -> unbounded_queues p /\ joined p.
Proof.
  intros [acts Hrun].
  assert (G : forall acts q, unbounded_queues q -> joined q ->
                run tr acts q = Some p -> unbounded_queues p /\ joined p).
  { clear. induction acts as [|a r IH]; intros q Hu Hj Hrun; simpl in Hrun.
    - inversion Hrun; subst. now split.
    - destruct (step tr a q) as [q1|] eqn:Hs; [|discriminate].
      apply (IH q1); [eapply step_unbounded | eapply step_joined | ]; eassumption. }
  apply (G acts (start cfg)); [split; reflexivity | exact I | exact Hrun].
Qed.

(** Once the flag is false and the capture thread has returned, the
    translation thread can leave its loop. *)
Lemma translate_can_exit tr p :
  running (st p) = false ->
  unbounded_queues p ->
  exists acts p',
    run tr acts p = Some p'
    /\ translate_alive (translate_pc p') = false
    /\ main_pc p' = main_pc p.
Proof.
  intros Hr [_ Ht]. destruct p as [s cpc tpc mpc tm]. simpl in *.
  destruct tpc.
  - exists [ATranslate]. eexists. simpl. unfold step, translate_step; simpl.
    rewrite Hr. repeat split.
  - unfold empty, get.
    destruct (items (recognized_queue s)) as [|item rest] eqn:Hq.
    + exists [ATranslate; ATranslate]. eexists. simpl.
      unfold step, translate_step, empty; simpl. rewrite Hq; simpl. rewrite Hr.
      repeat split.
    + destruct (tr (text item)) as [t|] eqn:Htr.
      * exists [ATranslate; ATranslate]. eexists. simpl.
        unfold step, translate_step, empty, get; simpl. rewrite Hq, Htr.
        rewrite put_unbounded by lia. simpl. rewrite Hr. repeat split.
      * exists [ATranslate]. eexists. simpl.
        unfold step, translate_step, empty, get; simpl. rewrite Hq, Htr.
        repeat split.
  - exists []. eexists. repeat split.
  - exists []. eexists. repeat split.
Qed.

(** With both threads gone, the main thread can run to its end. *)
Lemma main_can_return tr p :
  capture_pc p = CapExited ->
  translate_alive (translate_pc p) = false ->
  exists acts p', run tr acts p = Some p' /\ main_pc p' = MainReturned.
Proof.
  intros Hc Ht. destruct p as [s cpc tpc mpc tm]. simpl in *. subst cpc.
  destruct mpc.
  - exists [AMain; AClose; AMain; AMain; AMain]. eexists. simpl.
    rewrite Ht. split; reflexivity.
  - exists [AClose; AMain; AMain; AMain]. eexists. simpl.
    rewrite Ht. split; reflexivity.
  - exists [AMain; AMain; AMain]. eexists. simpl.
    rewrite Ht. split; reflexivity.
  - exists [AMain; AMain]. eexists. simpl. rewrite Ht. split; reflexivity.
  - exists [AMain]. eexists. simpl. rewrite Ht. split; reflexivity.
  - exists []. eexists. split; reflexivity.
Qed.

End ShutdownFacts.

Section ShutdownClaim.

Import Translate Threads.

(** C6: when recording a frame raises, the capture thread sets [running]
    to false and returns.  From then on, along every schedule: the flag
    stays false; the capture thread takes no further step (no retry); the
    translation thread is never blocked on a queue and has left its loop
    after at most two of its own steps; a pending [update_gui] runs once
    more and is not scheduled again; [main] returns only after both threads
    have ended (the two [join]s); and from every such state there is a
    schedule on which [main] returns, so nothing is stuck on a channel. *)
Theorem capture_error_shutdown (tr : Translator) (cfg : Config) (p : Pipeline) :
  reachable tr cfg p ->
  capture_pc p = CapRecord ->
  exists p1,
    step tr (ACapture Raises) p = Some p1
    /\ running (st p1) = false
    /\ capture_pc p1 = CapExited
    /\ forall acts p2,
         run tr acts p1 = Some p2 ->
         running (st p2) = false
         /\ capture_pc p2 = CapExited
         /\ (forall o, step tr (ACapture o) p2 = None)
         /\ (translate_alive (translate_pc p2) = true ->
             exists p3, step tr ATranslate p2 = Some p3)
         /\ (2 <= translate_steps acts ->
             translate_alive (translate_pc p2) = false)%nat
         /\ (forall p3, step tr ATick p2 = Some p3 -> timer p3 = false)
         /\ (main_pc p2 = MainReturned ->
             translate_alive (translate_pc p2) = false)
         /\ (exists more p3,
               run tr more p2 = Some p3 /\ main_pc p3 = MainReturned).
Proof.
  intros Hreach Hpc.
  destruct (reachable_inv tr cfg p Hreach) as [Hu Hj].
  assert (Hstep : step tr (ACapture Raises) p
                  = Some (mkPipeline (set_running false (st p)) CapExited
                            (translate_pc p) (main_pc p) (timer p))).
  { unfold step, capture_step. now rewrite Hpc. }
  eexists. split; [exact Hstep|]. split; [reflexivity|]. split; [reflexivity|].
  intros acts p2 Hrun.
  destruct (run_shutdown tr acts _ p2 Hrun) as (Hr2 & Hc2 & Hu2 & Hj2 & Hrank).
  - reflexivity.
  - reflexivity.
  - eapply step_unbounded; eassumption.
  - eapply step_joined; eassumption.
  - cbn [translate_pc] in Hrank.
    split; [exact Hr2|]. split; [exact Hc2|].
    split; [intros o; now apply capture_exited_stuck|].
    split; [intros Ha; now apply translate_enabled|].
    split.
    { intros Hn.
      assert (tr_rank (translate_pc p) <= 2)%nat by (destruct (translate_pc p); simpl; lia).
      destruct (translate_pc p2); simpl in *; try reflexivity; lia. }
    split; [intros p3; now apply tick_stops|].
    split.
    { intros Hm. unfold joined in Hj2. rewrite Hm in Hj2. tauto. }
    destruct (translate_can_exit tr p2 Hr2 Hu2) as (a1 & q & Hq & Hdone & Hmain).
    destruct (run_shutdown tr a1 p2 q Hq Hr2 Hc2 Hu2 Hj2) as (_ & Hcq & _).
    destruct (main_can_return tr q Hcq Hdone) as (a2 & q' & Hq' & Hret).
    exists (a1 ++ a2), q'. rewrite run_app, Hq. split; assumption.
Qed.

Lemma capture_error_shutdown_witness :
  let cfg := mkConfig 200 100 in
  let p := mkPipeline (init_state cfg) CapRecord TrHead MainStart false in
  reachable identity cfg p
  /\ capture_pc p = CapRecord
  /\ exists p1, step identity (ACapture Raises) p = Some p1
                /\ running (st p1) = false.
Proof.
  intros cfg p.
  assert (Hreach : reachable identity cfg p).
  { exists [ACapture Raises]. reflexivity. }
  split; [exact Hreach|]. split; [reflexivity|].
  destruct (capture_error_shutdown identity cfg p Hreach eq_refl)
    as (p1 & H1 & H2 & _).
  exists p1. split; assumption.
Defined.

End ShutdownClaim.

(** ** The "..." marker of the caption variants *)

Section MarkerClaim.

(** C9: in both caption variants [update_gui] treats the item it takes from
    the queue as a partial exactly when the item contains "...": then
    live_captions.py shows it after the buffer and leaves [text_buffer] as
    it was, and the optimised variant replaces [text_buffer] by the item;
    otherwise both append the item to [text_buffer].  For every recognizer
    result that is not blank, [capture_audio] enqueues the upper-cased text
    followed by "..." when the result is partial, and the upper-cased text
    alone when it is final; a blank result is not enqueued.  A final result
    whose recognized text contains "..." is therefore enqueued with the
    dots in it, is handled as a partial, and is not appended to the buffer.
    [upper] is [str.upper], of which only this is used: it works on the
    characters one by one and leaves a full stop as it is. *)
Theorem marker_classifies (upper : str -> str) (max_length mx : Z)
    (tb lb new_text : str) (rest : list str) :
  (forall a b, upper (a ++ dots ++ b) = upper a ++ dots ++ upper b) ->
  let q := mkQueue mx (new_text :: rest) in
  let g := Captions.update_gui max_length (Captions.mkGui tb q lb) in
  let g' := CaptionsOptimised.update_gui max_length
              (CaptionsOptimised.mkGui tb q lb) in
  (contains dots new_text = true ->
     Captions.text_buffer g = tb
     /\ Captions.label g = last_chars max_length (tb ++ sep ++ new_text)
     /\ CaptionsOptimised.text_buffer g' = new_text
     /\ CaptionsOptimised.label g'
        = remove_dots (last_chars max_length new_text)
     /\ Captions.text_buffer g <> tb ++ sep ++ new_text
     /\ CaptionsOptimised.text_buffer g' <> tb ++ sep ++ new_text)
  /\ (contains dots new_text = false ->
      Captions.text_buffer g = tb ++ sep ++ new_text
      /\ Captions.label g = last_chars max_length (tb ++ sep ++ new_text)
      /\ CaptionsOptimised.text_buffer g' = tb ++ sep ++ new_text
      /\ CaptionsOptimised.label g'
         = remove_dots (last_chars max_length (tb ++ sep ++ new_text)))
  /\ (forall raw,
        strip raw <> [] ->
        Captions.capture_item upper (PartialResult raw)
          = Some (upper (strip raw) ++ dots)
        /\ contains dots (upper (strip raw) ++ dots) = true
        /\ Captions.capture_item upper (FinalResult raw)
           = Some (upper (strip raw)))
  /\ (forall raw,
        strip raw = [] ->
        Captions.capture_item upper (PartialResult raw) = None
        /\ Captions.capture_item upper (FinalResult raw) = None)
  /\ (forall raw item,
        Captions.capture_item upper (PartialResult raw) = Some item ->
        item = upper (strip raw) ++ dots /\ contains dots item = true)
  /\ (forall raw,
        contains dots raw = true ->
        Captions.capture_item upper (FinalResult raw) = Some (upper (strip raw))
        /\ contains dots (upper (strip raw)) = true
        /\ Captions.text_buffer
             (Captions.update_gui max_length
                (Captions.mkGui tb (mkQueue mx (upper (strip raw) :: rest)) lb))
           = tb
        /\ CaptionsOptimised.text_buffer
             (CaptionsOptimised.update_gui max_length
                (CaptionsOptimised.mkGui tb
                   (mkQueue mx (upper (strip raw) :: rest)) lb))
           = upper (strip raw)).
Proof.
  intros Hup q g g'. subst q g g'.
  assert (Hshow : forall x : str,
             contains dots x = true ->
             Captions.text_buffer
               (Captions.update_gui max_length
                  (Captions.mkGui tb (mkQueue mx (x :: rest)) lb)) = tb
             /\ Captions.label
                  (Captions.update_gui max_length
                     (Captions.mkGui tb (mkQueue mx (x :: rest)) lb))
                = last_chars max_length (tb ++ sep ++ x)
             /\ CaptionsOptimised.text_buffer
                  (CaptionsOptimised.update_gui max_length
                     (CaptionsOptimised.mkGui tb (mkQueue mx (x :: rest)) lb)) = x
             /\ CaptionsOptimised.label
                  (CaptionsOptimised.update_gui max_length
                     (CaptionsOptimised.mkGui tb (mkQueue mx (x :: rest)) lb))
                = remove_dots (last_chars max_length x)).
  { intros x Hx.
    unfold Captions.update_gui, CaptionsOptimised.update_gui, empty, get.
    cbn [items Captions.transcript_queue CaptionsOptimised.transcript_queue
         Captions.text_buffer CaptionsOptimised.text_buffer].
    rewrite Hx. repeat split. }
  split; [|split; [|split; [|split; [|split]]]].
  - intros H. destruct (Hshow new_text H) as (H1 & H2 & H3 & H4).
    rewrite H1, H3. repeat split; try assumption.
    + apply app_tail_neq. discriminate.
    + rewrite app_assoc. apply app_head_neq. destruct tb; discriminate.
  - intros H.
    unfold Captions.update_gui, CaptionsOptimised.update_gui, empty, get.
    cbn [items Captions.transcript_queue CaptionsOptimised.transcript_queue
         Captions.text_buffer CaptionsOptimised.text_buffer].
    rewrite H. repeat split.
  - intros raw Hraw. unfold Captions.capture_item.
    destruct (strip raw) as [|c r] eqn:E; [congruence|]. simpl.
    repeat split. apply contains_marker_suffix.
  - intros raw Hraw. unfold Captions.capture_item. rewrite Hraw. split; reflexivity.
  - intros raw item H. unfold Captions.capture_item in H.
    destruct (truthy (strip raw)); [|discriminate].
    inversion H. split; [reflexivity | apply contains_marker_suffix].
  - intros raw H.
    assert (Hs : contains dots (strip raw) = true) by now apply contains_strip.
    assert (Hu : contains dots (upper (strip raw)) = true)
      by now apply contains_upper.
    split.
    { unfold Captions.capture_item.
      destruct (strip raw); [discriminate Hs | reflexivity]. }
    split; [exact Hu|].
    destruct (Hshow (upper (strip raw)) Hu) as (H1 & _ & H3 & _).
    split; assumption.
Qed.

Lemma marker_classifies_witness :
  (forall a b, upper_ascii (a ++ dots ++ b) = upper_ascii a ++ dots ++ upper_ascii b)
  /\ contains dots "WAIT... WHAT" = true
  /\ Captions.text_buffer
       (Captions.update_gui 200
          (Captions.mkGui " HELLO" (mkQueue 0 [lit "WAIT... WHAT"]) [])) = lit " HELLO"
  /\ Captions.capture_item upper_ascii (FinalResult "wait... what")
     = Some (lit "WAIT... WHAT")
  /\ Captions.capture_item upper_ascii (PartialResult " wait ")
     = Some (lit "WAIT...").
Proof.
  split; [exact upper_ascii_dots|]. split; [reflexivity|].
  pose proof (marker_classifies upper_ascii 200 0 " HELLO" [] "WAIT... WHAT" []
                upper_ascii_dots) as H.
  split; [exact (proj1 (proj1 H eq_refl))|].
  split.
  - exact (proj1 (proj2 (proj2 (proj2 (proj2 (proj2 H)))) "wait... what" eq_refl)).
  - exact (proj1 (proj1 (proj2 (proj2 H)) " wait " ltac:(discriminate))).
Defined.

End MarkerClaim.

(** ** Quantisation of the samples *)

Section QuantiseFacts.

Import Audio.

Local Open Scope Q_scope.





Lemma clip_nan (lo hi : Q) : clip NaN lo hi = NaN.
Proof. reflexivity. Qed.




End QuantiseFacts.

Section QuantiseClaim.

Import Audio.

Local Open Scope Q_scope.




Example quantise_loud : quantise exact (Num 1000000) (Num (3 # 4)) = Some 32767%Z.
Proof. reflexivity. Qed.

Example quantise_quiet :
  quantise exact (Num (3 # 2)) (Num (- (1 # 3))) = Some (-16383)%Z.
Proof. reflexivity. Qed.

Example quantise_overflowed_gain : quantise exact PosInf (Num (1 # 1000)) = Some 32767%Z.
Proof. reflexivity. Qed.

End QuantiseClaim.

(** * Further properties of the code *)

(** ** White space *)

Section StripFacts.

Implicit Types s t : str.

Lemma lstrip_head s :
  match lstrip s with [] => True | c :: _ => is_space c = false end.
Proof.
  induction s as [|a r IH]; simpl; [exact I|].
  destruct (is_space a) eqn:E; [exact IH | exact E].
Qed.

Lemma rstrip_cons_nonspace c s :
  is_space c = false -> rstrip (c :: s) = c :: rstrip s.
Proof. intros Hc. simpl. destruct (rstrip s); [now rewrite Hc | reflexivity]. Qed.

Lemma rstrip_idem s : rstrip (rstrip s) = rstrip s.
Proof.
  induction s as [|c r IH]; simpl; [reflexivity|].
  destruct (rstrip r) as [|a r'] eqn:E.
  - destruct (is_space c) eqn:Hc; simpl; [reflexivity | now rewrite Hc].
  - change (rstrip (c :: a :: r')) with
      (match rstrip (a :: r') with [] => if is_space c then [] else [c]
                                 | x => c :: x end).
    now rewrite IH.
Qed.

Lemma rstrip_last s :
  match last (rstrip s) with None => True | Some c => is_space c = false end.
Proof.
  induction s as [|c r IH]; simpl; [exact I|].
  destruct (rstrip r) as [|a r'] eqn:E.
  - destruct (is_space c) eqn:Hc; simpl; [exact I | exact Hc].
  - exact IH.
Qed.

Lemma strip_head s :
  match strip s with [] => True | c :: _ => is_space c = false end.
Proof.
  unfold strip. pose proof (lstrip_head s) as H.
  destruct (lstrip s) as [|c r]; [exact I|].
  now rewrite rstrip_cons_nonspace.
Qed.

Lemma strip_idem s : strip (strip s) = strip s.
Proof.
  unfold strip at 1.
  assert (H : lstrip (strip s) = strip s).
  { pose proof (strip_head s) as Hh. destruct (strip s) as [|c r]; [reflexivity|].
    simpl. now rewrite Hh. }
  rewrite H. unfold strip. apply rstrip_idem.
Qed.

End StripFacts.

Section CaptureNormalForm.

Import Translate.

(** X1: every event that the capture stage emits carries the flag of the
    recognizer's answer and a text that is not empty, is already stripped,
    and neither begins nor ends with a white space character. *)
Theorem capture_event_normal (r : Recognized) (item : RecognizedItem) :
  capture_event r = Some item ->
  is_final item = match r with FinalResult _ => true | PartialResult _ => false end
  /\ text item <> []
  /\ strip (text item) = text item
  /\ (exists c, head (text item) = Some c /\ is_space c = false)
  /\ (exists c, last (text item) = Some c /\ is_space c = false).
Proof.
  intros H.
  assert (G : exists raw, text item = strip raw /\ strip raw <> []
                          /\ is_final item
                             = match r with FinalResult _ => true
                                          | PartialResult _ => false end).
  { destruct r as [raw|raw]; simpl in H; exists raw;
      destruct (strip raw) eqn:E; simpl in H; try discriminate;
      inversion H; subst; simpl; repeat split; discriminate. }
  destruct G as (raw & Ht & Hne & Hf). rewrite Ht.
  split; [exact Hf|]. split; [exact Hne|]. split; [apply strip_idem|].
  split.
  - pose proof (strip_head raw) as Hh.
    destruct (strip raw) as [|c t]; [congruence|]. now exists c.
  - pose proof (rstrip_last (lstrip raw)) as Hl. fold (strip raw) in Hl.
    destruct (last (strip raw)) as [c|] eqn:E; [now exists c|].
    apply last_None in E. congruence.
Qed.

Lemma capture_event_normal_witness :
  capture_event (PartialResult "  hello world ")
    = Some (mkRecognized "hello world" false)
  /\ strip (lit "hello world") = lit "hello world".
Proof.
  split; [reflexivity|].
  exact (proj1 (proj2 (proj2
           (capture_event_normal (PartialResult "  hello world ")
              (mkRecognized "hello world" false) eq_refl)))).
Defined.

End CaptureNormalForm.

(** ** update_gui of live_translate.py: limits and idle calls *)

Section DisplayEdges.

Import Translate.

Implicit Types s : State.

Lemma last_chars_nonpos (n : Z) (t : str) :
  n <= 0 -> last_chars n t = drop (Z.to_nat (- n)) t.
Proof.
  intros Hn. unfold last_chars, slice_from.
  destruct (Z.ltb_spec (- n) 0); [lia | reflexivity].
Qed.

(** X2: a limit that is zero or negative never keeps a tail.  [update_gui]
    then removes the first [-limit] characters of the composed text and of
    the buffer: with the limit 0 nothing is ever cut, and with a negative
    limit every call, also one without events, eats the oldest [-limit]
    characters. *)
Theorem nonpositive_limit s :
  let n := max_buffer_length (config s) in
  let d := drain (items (translated_queue s)) s in
  n <= 0 ->
  label (update_gui s) = drop (Z.to_nat (- n)) (compose d)
  /\ text_buffer (update_gui s) = drop (Z.to_nat (- n)) (text_buffer d)
  /\ (n = 0 -> label (update_gui s) = compose d
               /\ text_buffer (update_gui s) = text_buffer d).
Proof.
  intros n d Hn.
  assert (Hcfg : max_buffer_length (config d) = n).
  { unfold d. now rewrite drain_config. }
  assert (G : label (update_gui s) = drop (Z.to_nat (- n)) (compose d)
              /\ text_buffer (update_gui s) = drop (Z.to_nat (- n)) (text_buffer d)).
  { unfold update_gui, trim_and_show. fold d. cbn [config text_buffer set_translated_queue].
    change (compose (set_translated_queue _ d)) with (compose d).
    rewrite Hcfg.
    destruct (Z.gtb_spec (len (compose d)) n) as [Hc|Hc].
    - destruct (Z.gtb_spec (len (text_buffer d)) n) as [Hb|Hb]; simpl.
      + now rewrite !last_chars_nonpos by exact Hn.
      + rewrite last_chars_nonpos by exact Hn. split; [reflexivity|].
        pose proof (len_nonneg (text_buffer d)).
        assert (n = 0) as -> by lia. reflexivity.
    - simpl. pose proof (len_nonneg (compose d)).
      assert (n = 0) as -> by lia. split; reflexivity. }
  split; [apply G|]. split; [apply G|].
  intros H0. destruct G as [G1 G2]. rewrite G1, G2, H0. split; reflexivity.
Qed.

Lemma nonpositive_limit_witness :
  let s := set_translated_queue (mkQueue 0 [final_item "abcdef"])
             (init_state (mkConfig (-2) 100)) in
  max_buffer_length (config s) <= 0
  /\ label (update_gui s) = lit "cdef"
  /\ text_buffer (update_gui s) = lit "bcdef".
Proof.
  intros s. split; [discriminate|].
  pose proof (nonpositive_limit s ltac:(discriminate)) as H.
  split; [exact (proj1 H) | exact (proj1 (proj2 H))].
Defined.

Lemma update_gui_partial_text s :
  partial_text (update_gui s) = partial_text (drain (items (translated_queue s)) s).
Proof.
  unfold update_gui, trim_and_show.
  destruct (len (compose _) >? _); [|reflexivity].
  destruct (len (text_buffer _) >? _); reflexivity.
Qed.

Lemma update_gui_config s : config (update_gui s) = config s.
Proof.
  unfold update_gui. rewrite trim_and_show_config. simpl. apply drain_config.
Qed.

Lemma update_gui_queue s :
  translated_queue (update_gui s) = mkQueue (maxsize (translated_queue s)) [].
Proof.
  unfold update_gui, trim_and_show.
  destruct (len (compose _) >? _); [|reflexivity].
  destruct (len (text_buffer _) >? _); reflexivity.
Qed.

(** What a call without events does. *)
Lemma update_gui_idle s :
  items (translated_queue s) = [] ->
  update_gui s = trim_and_show s.
Proof.
  intros H. unfold update_gui. rewrite H. simpl.
  destruct s as [c r rq [mx its] tb pt lb]. simpl in H. now subst its.
Qed.

(** X3: with a positive limit, a further call of [update_gui] that finds no
    event leaves the committed and the pending text as they are; when the
    composed text fits the limit it leaves the whole state as it is. *)
Theorem idle_call_stable s :
  let m := max_buffer_length (config s) in
  let d := drain (items (translated_queue s)) s in
  0 < m ->
  text_buffer (update_gui (update_gui s)) = text_buffer (update_gui s)
  /\ partial_text (update_gui (update_gui s)) = partial_text (update_gui s)
  /\ (len (compose d) <= m -> update_gui (update_gui s) = update_gui s).
Proof.
  intros m d Hm.
  set (s1 := update_gui s).
  assert (Hq : items (translated_queue s1) = []).
  { unfold s1. now rewrite update_gui_queue. }
  assert (Hc : max_buffer_length (config s1) = m).
  { unfold s1. now rewrite update_gui_config. }
  rewrite (update_gui_idle s1 Hq).
  assert (Hp : partial_text (trim_and_show s1) = partial_text s1).
  { unfold trim_and_show.
    destruct (len (compose s1) >? _); [|reflexivity].
    destruct (len (text_buffer s1) >? _); reflexivity. }
  destruct (trim_and_show_spec s1) as [Hl Ht]; [rewrite Hc; exact Hm|].
  rewrite Hc in Hl, Ht.
  (* the first call *)
  set (s2 := set_translated_queue (mkQueue (maxsize (translated_queue s)) []) d).
  assert (Hs1 : s1 = trim_and_show s2) by reflexivity.
  assert (Hc2 : max_buffer_length (config s2) = m).
  { unfold s2, d. simpl. now rewrite drain_config. }
  destruct (trim_and_show_spec s2) as [Hl2 Ht2]; [rewrite Hc2; exact Hm|].
  rewrite Hc2 in Hl2, Ht2. rewrite <- Hs1 in Hl2, Ht2.
  change (compose s2) with (compose d) in Hl2, Ht2.
  change (text_buffer s2) with (text_buffer d) in Ht2.
  assert (Hstable : text_buffer (trim_and_show s1) = text_buffer s1).
  { rewrite Ht.
    destruct (Z.gtb_spec (len (compose s1)) m) as [Hbig|]; [|reflexivity].
    destruct (Z.gtb_spec (len (text_buffer s1)) m) as [Hbb|]; [|reflexivity].
    exfalso.
    destruct (Z.gtb_spec (len (compose d)) m) as [Hd|Hd].
    - destruct (Z.gtb_spec (len (text_buffer d)) m) as [Hdb|Hdb]; simpl in Ht2.
      + rewrite Ht2 in Hbb. unfold len in *. rewrite length_drop in Hbb. lia.
      + rewrite Ht2 in Hbb. lia.
    - simpl in Ht2.
      assert (Heq : compose s1 = compose d).
      { unfold compose. rewrite Ht2. unfold s1.
        now rewrite update_gui_partial_text. }
      rewrite Heq in Hbig. lia. }
  split; [exact Hstable|]. split; [exact Hp|].
  intros Hfit.
  destruct (Z.gtb_spec (len (compose d)) m) as [Hd|_]; [lia|].
  simpl in Ht2.
  assert (Hcomp : compose s1 = compose d).
  { unfold compose. rewrite Ht2. unfold s1. now rewrite update_gui_partial_text. }
  unfold trim_and_show. rewrite Hc, Hcomp.
  destruct (Z.gtb_spec (len (compose d)) m) as [Hd|_]; [lia|].
  rewrite <- Hl2. now destruct s1.
Qed.

Lemma idle_call_stable_witness :
  let s := set_translated_queue
             (mkQueue 0 [final_item "abcdefghij"; partial_item "kl"])
             (init_state (mkConfig 10 100)) in
  0 < max_buffer_length (config s)
  /\ text_buffer (update_gui (update_gui s)) = text_buffer (update_gui s).
Proof.
  intros s. split; [reflexivity|].
  exact (proj1 (idle_call_stable s eq_refl)).
Defined.

End DisplayEdges.

(** ** The pipeline of live_translate.py as a whole *)

Section PipelineFacts.

Import Translate Threads Observe.

Implicit Types (p : Pipeline) (s : State) (tr : Translator).

(** Case analysis of one step, innermost test first. *)
Ltac by_step H :=
  match type of H with
  | step _ ?a ?p = Some _ =>
      destruct p as [s cpc tpc mpc tm]; destruct a as [o| | | |];
      unfold step, capture_step, translate_step in H;
      cbn [st capture_pc translate_pc main_pc timer] in H;
      repeat (match type of H with
              | context [match ?x with _ => _ end] =>
                  lazymatch x with
                  | context [match _ with _ => _ end] => fail
                  | _ => destruct x eqn:?
                  end
              end; cbv beta iota in H);
      try discriminate; inversion H; subst; clear H
  end.

Lemma step_translate_dead tr a p p' :
  step tr a p = Some p' ->
  translate_alive (translate_pc p) = false ->
  translate_alive (translate_pc p') = false.
Proof. intros H Hd. by_step H; simpl in *; congruence. Qed.

Lemma run_invariants tr acts p p' :
  run tr acts p = Some p' ->
  unbounded_queues p -> joined p ->
  unbounded_queues p' /\ joined p'
  /\ (running (st p) = false -> running (st p') = false)
  /\ (capture_pc p = CapExited -> capture_pc p' = CapExited)
  /\ (translate_alive (translate_pc p) = false ->
      translate_alive (translate_pc p') = false).
Proof.
  revert p. induction acts as [|a r IH]; intros p Hrun Hu Hj; simpl in Hrun.
  - inversion Hrun; subst. tauto.
  - destruct (step tr a p) as [p1|] eqn:Hs; [|discriminate].
    destruct (IH p1 Hrun) as (H1 & H2 & H3 & H4 & H5).
    + eapply step_unbounded; eassumption.
    + eapply step_joined; eassumption.
    + split; [exact H1|]. split; [exact H2|]. split; [|split].
      * intros Hr. apply H3. eapply step_running_false; eassumption.
      * intros Hc. apply H4. eapply step_capture_exited; eassumption.
      * intros Hd. apply H5. eapply step_translate_dead; eassumption.
Qed.

(** X4: in every reachable state, [main] has returned only if the flag is
    false and both threads have ended, and it waits for the translation
    thread only once the capture thread has ended: no thread outlives
    [main]. *)
Theorem no_thread_outlives_main tr (cfg : Config) p :
  reachable tr cfg p ->
  (main_pc p = MainReturned ->
   running (st p) = false /\ capture_pc p = CapExited
   /\ translate_alive (translate_pc p) = false)
  /\ (main_pc p = MainJoinTranslate ->
      running (st p) = false /\ capture_pc p = CapExited)
  /\ unbounded_queues p.
Proof.
  intros Hreach. destruct (reachable_inv tr cfg p Hreach) as [Hu Hj].
  unfold joined in Hj.
  split; [|split; [|exact Hu]]; intros Hm; rewrite Hm in Hj; tauto.
Qed.

Lemma no_thread_outlives_main_witness :
  let cfg := mkConfig 200 100 in
  let acts := [ACapture Raises; ACapture Raises; ATranslate;
               AMain; AClose; AMain; AMain; AMain] in
  exists p, run identity acts (start cfg) = Some p
            /\ main_pc p = MainReturned
            /\ capture_pc p = CapExited.
Proof.
  intros cfg acts.
  eexists. split; [vm_compute; reflexivity|]. split; [reflexivity|].
  refine (proj1 (proj2 (proj1
            (no_thread_outlives_main identity cfg _ (ex_intro _ acts eq_refl))
            eq_refl))).
Defined.

Lemma run_reachable tr (cfg : Config) acts p p' :
  reachable tr cfg p -> run tr acts p = Some p' -> reachable tr cfg p'.
Proof.
  intros [a0 H0] H. exists (a0 ++ acts). now rewrite run_app, H0.
Qed.

(** The main thread can always get to its [finally] block and clear the
    flag. *)
Lemma main_can_close tr p :
  joined p ->
  exists p1, run tr (closing (main_pc p)) p = Some p1 /\ running (st p1) = false.
Proof.
  intros Hj. destruct p as [s cpc tpc mpc tm]. unfold joined in Hj.
  destruct mpc; simpl in *; eexists; (split; [reflexivity|]); simpl; tauto.
Qed.

(** With the flag false, the capture thread leaves its loop as soon as the
    recording returns. *)
Lemma capture_can_exit tr p :
  running (st p) = false ->
  exists acts p',
    run tr acts p = Some p' /\ capture_pc p' = CapExited.
Proof.
  intros Hr. destruct p as [s cpc tpc mpc tm]. simpl in Hr.
  destruct cpc.
  - exists [ACapture (Returns (PartialResult []))]. eexists. simpl.
    rewrite Hr. split; reflexivity.
  - exists [ACapture (Returns (PartialResult [])); ACapture (Returns (PartialResult []))].
    eexists. simpl. rewrite Hr. split; reflexivity.
  - exists []. eexists. split; reflexivity.
Qed.

(** X5: from every reachable state there is a schedule on which the window
    is closed, both threads leave their loops and [main] returns; no state
    that the program can reach is a dead end. *)
Theorem shutdown_always_possible tr (cfg : Config) p :
  reachable tr cfg p ->
  exists acts p',
    run tr acts p = Some p'
    /\ main_pc p' = MainReturned
    /\ running (st p') = false
    /\ capture_pc p' = CapExited
    /\ translate_alive (translate_pc p') = false.
Proof.
  intros Hreach. destruct (reachable_inv tr cfg p Hreach) as [Hu Hj].
  destruct (main_can_close tr p Hj) as (p1 & R1 & Hr1).
  destruct (run_invariants tr _ p p1 R1 Hu Hj) as (Hu1 & Hj1 & _).
  destruct (capture_can_exit tr p1 Hr1) as (a2 & p2 & R2 & Hc2).
  destruct (run_invariants tr _ p1 p2 R2 Hu1 Hj1) as (Hu2 & Hj2 & Hk2 & _).
  specialize (Hk2 Hr1).
  destruct (translate_can_exit tr p2 Hk2 Hu2) as (a3 & p3 & R3 & Hd3 & _).
  destruct (run_invariants tr _ p2 p3 R3 Hu2 Hj2) as (Hu3 & Hj3 & Hk3 & Hc3 & _).
  specialize (Hc3 Hc2).
  destruct (main_can_return tr p3 Hc3 Hd3) as (a4 & p4 & R4 & Hm4).
  destruct (run_invariants tr _ p3 p4 R4 Hu3 Hj3) as (_ & Hj4 & _).
  exists (closing (main_pc p) ++ a2 ++ a3 ++ a4), p4.
  rewrite run_app, R1, run_app, R2, run_app, R3.
  split; [exact R4|]. split; [exact Hm4|].
  unfold joined in Hj4. rewrite Hm4 in Hj4. tauto.
Qed.

Lemma shutdown_always_possible_witness :
  let cfg := mkConfig 200 100 in
  reachable identity cfg (start cfg)
  /\ exists acts p', run identity acts (start cfg) = Some p'
                     /\ main_pc p' = MainReturned.
Proof.
  intros cfg.
  assert (Hreach : reachable identity cfg (start cfg)) by (exists []; reflexivity).
  split; [exact Hreach|].
  destruct (shutdown_always_possible identity cfg (start cfg) Hreach)
    as (acts & p' & H1 & H2 & _).
  exists acts, p'. split; assumption.
Defined.

Lemma step_dead_translator tr a p p' :
  step tr a p = Some p' ->
  translate_pc p = TrRaised ->
  translate_pc p' = TrRaised
  /\ items (recognized_queue (st p)) `prefix_of` items (recognized_queue (st p'))
  /\ (items (translated_queue (st p')) = items (translated_queue (st p))
      \/ items (translated_queue (st p')) = []).
Proof.
  intros H Hd. by_step H; simpl in *; subst; try discriminate;
    (split; [reflexivity|]); split;
    repeat match goal with
      | E : put _ _ = Some _ |- _ => apply put_items in E; rewrite E
      end;
    rewrite ?update_gui_queue, ?(proj1 (proj2 (update_gui_frame s)));
    try reflexivity; try (now left); try (now right); try (now eexists).
Qed.

(** X6: once the translation thread has died of an exception, nothing is
    put on [translated_queue] any more, whatever the schedule: recognized
    events only pile up on [recognized_queue], and the display gets at most
    what was already waiting. *)
Theorem dead_translator_starves_display tr acts p p' :
  translate_pc p = TrRaised ->
  run tr acts p = Some p' ->
  translate_pc p' = TrRaised
  /\ items (recognized_queue (st p)) `prefix_of` items (recognized_queue (st p'))
  /\ (items (translated_queue (st p')) = items (translated_queue (st p))
      \/ items (translated_queue (st p')) = []).
Proof.
  revert p. induction acts as [|a r IH]; intros p Hd Hrun; simpl in Hrun.
  - inversion Hrun; subst. split; [exact Hd|]. split; [reflexivity | now left].
  - destruct (step tr a p) as [p1|] eqn:Hs; [|discriminate].
    destruct (step_dead_translator tr a p p1 Hs Hd) as (H1 & H2 & H3).
    destruct (IH p1 H1 Hrun) as (G1 & G2 & G3).
    split; [exact G1|]. split; [etransitivity; eassumption|].
    destruct G3 as [G3|G3]; [rewrite G3; exact H3 | now right].
Qed.

Lemma dead_translator_starves_display_witness :
  let p := mkPipeline (init_state (mkConfig 200 100)) CapHead TrRaised MainStart false in
  translate_pc p = TrRaised
  /\ exists p', run failing (rounds 2 ++ [AMain]) p = Some p'
                /\ length (items (recognized_queue (st p'))) = 2%nat
                /\ translate_pc p' = TrRaised.
Proof.
  intros p. split; [reflexivity|].
  eexists. split; [vm_compute; reflexivity|]. split; [reflexivity|].
  refine (proj1 (dead_translator_starves_display failing (rounds 2 ++ [AMain]) p _
                   eq_refl eq_refl)).
Defined.

Lemma step_delivery (f : str -> str) a p p' captured shown :
  step (fun t => Returns (f t)) a p = Some p' ->
  map (translated_by f) captured
    = shown ++ items (translated_queue (st p))
        ++ map (translated_by f) (items (recognized_queue (st p))) ->
  text_buffer (st p) `suffix_of` appended shown ->
  map (translated_by f) (captured ++ captured_by a p)
    = (shown ++ shown_by a p) ++ items (translated_queue (st p'))
        ++ map (translated_by f) (items (recognized_queue (st p')))
  /\ text_buffer (st p') `suffix_of` appended (shown ++ shown_by a p).
Proof.
  intros H Hq Hb.
  assert (Htick : forall s : State,
             text_buffer s `suffix_of` appended shown ->
             text_buffer (update_gui s)
               `suffix_of` appended (shown ++ items (translated_queue s))).
  { intros s0 Hs0. rewrite appended_app.
    etransitivity; [apply update_gui_suffix|]. now apply suffix_app. }
  by_step H; unfold captured_by, shown_by; simpl in *; subst;
    repeat match goal with
      | E : put _ _ = Some _ |- _ => apply put_items in E; rewrite E
      | E : get _ = Some _ |- _ => apply get_items in E; simpl in E
      | E : capture_event _ = _ |- _ => rewrite E
      end;
    rewrite ?app_nil_r, ?update_gui_queue,
            ?(proj1 (proj2 (update_gui_frame s)));
    simpl; try (split; [assumption | assumption]).
  - destruct o; rewrite app_nil_r; now split.
  - destruct o; rewrite app_nil_r; now split.
  - split; [|assumption].
    rewrite !map_app, Hq. simpl. now rewrite <- !app_assoc.
  - split; [|assumption].
    match goal with E : items (recognized_queue s) = _ |- _ => rewrite E in Hq end.
    simpl in Hq. rewrite Hq. now rewrite <- !app_assoc.
  - split; [|now apply Htick]. rewrite Hq. now rewrite <- !app_assoc.
  - split; [|now apply Htick]. rewrite Hq. now rewrite <- !app_assoc.
Qed.

(** X7: when the translator always returns, the pipeline neither loses,
    duplicates nor reorders events, on any schedule.  The translations of
    the events captured so far are, in capture order, the items already
    handed to [update_gui], then the items waiting on [translated_queue],
    then the translations of the items waiting on [recognized_queue]; and
    the committed text is a tail of what the final items handed over add. *)
Theorem pipeline_delivers_in_order (f : str -> str) (cfg : Config) acts p
    captured shown :
  run_log (fun t => Returns (f t)) acts (start cfg) [] [] = Some (p, captured, shown) ->
  map (translated_by f) captured
    = shown ++ items (translated_queue (st p))
        ++ map (translated_by f) (items (recognized_queue (st p)))
  /\ text_buffer (st p) `suffix_of` appended shown.
Proof.
  assert (G : forall (acts : list Action) (q : Pipeline)
                     (c0 : list RecognizedItem) (sh0 : list TranslatedItem),
             map (translated_by f) c0
               = sh0 ++ items (translated_queue (st q))
                   ++ map (translated_by f) (items (recognized_queue (st q))) ->
             text_buffer (st q) `suffix_of` appended sh0 ->
             run_log (fun t => Returns (f t)) acts q c0 sh0 = Some (p, captured, shown) ->
             map (translated_by f) captured
               = shown ++ items (translated_queue (st p))
                   ++ map (translated_by f) (items (recognized_queue (st p)))
             /\ text_buffer (st p) `suffix_of` appended shown).
  { clear. induction acts as [|a r IH]; intros q c0 sh0 Hq Hb Hrun; simpl in Hrun.
    - inversion Hrun; subst. now split.
    - destruct (step _ a q) as [q1|] eqn:Hs; [|discriminate].
      destruct (step_delivery f a q q1 c0 sh0 Hs Hq Hb) as [Hq1 Hb1].
      exact (IH q1 _ _ Hq1 Hb1 Hrun). }
  intros Hrun. apply (G acts (start cfg) [] []); [reflexivity | reflexivity | exact Hrun].
Qed.

Lemma pipeline_delivers_in_order_witness :
  let cfg := mkConfig 200 100 in
  let acts := rounds 2 ++ [ATranslate; ATranslate; AMain] in
  exists p captured shown,
    run_log (fun t => Returns (upper_ascii t)) acts (start cfg) [] []
      = Some (p, captured, shown)
    /\ length captured = 2%nat /\ length shown = 1%nat
    /\ text_buffer (st p) `suffix_of` appended shown.
Proof.
  intros cfg acts.
  eexists. eexists. eexists.
  split; [vm_compute; reflexivity|]. split; [reflexivity|]. split; [reflexivity|].
  refine (proj2 (pipeline_delivers_in_order upper_ascii cfg acts _ _ _ eq_refl)).
Defined.

End PipelineFacts.

(** ** live_translate_old.py *)

Section OldVariant.

Import Translate TranslateOld CaptionsRun.

Implicit Types s : TranslateOld.State.

Lemma ends_with_iff (p t : str) : ends_with p t = true <-> exists x, t = x ++ p.
Proof.
  unfold ends_with. rewrite starts_with_iff. split.
  - intros [r Hr]. exists (reverse r).
    apply (f_equal reverse) in Hr.
    rewrite reverse_involutive, reverse_app, reverse_involutive in Hr. exact Hr.
  - intros [x ->]. exists (reverse x). now rewrite reverse_app.
Qed.

Lemma old_update_gui_config s :
  TranslateOld.config (TranslateOld.update_gui s) = TranslateOld.config s.
Proof.
  unfold TranslateOld.update_gui.
  destruct (empty _); [reflexivity|].
  destruct (get _) as [[x q]|]; [|reflexivity].
  destruct (ends_with dots x); cbv zeta beta iota;
    destruct (len _ >? _); reflexivity.
Qed.

(** The buffer and the label after a call that takes the item [x]. *)
Lemma old_update_gui_item s (x : str) (rest : list str) :
  let m := max_buffer_length (TranslateOld.config s) in
  items (TranslateOld.transcript_queue s) = x :: rest ->
  0 < m ->
  let buffer := if ends_with dots x then TranslateOld.text_buffer s
                else TranslateOld.text_buffer s ++ sep ++ x in
  let display := TranslateOld.text_buffer s ++ sep ++ x in
  TranslateOld.label (TranslateOld.update_gui s) = last_chars m display
  /\ TranslateOld.text_buffer (TranslateOld.update_gui s)
     = (if len display >? m then last_chars m buffer else buffer)
  /\ items (TranslateOld.transcript_queue (TranslateOld.update_gui s)) = rest.
Proof.
  intros m Hq Hm buffer display. subst buffer display.
  unfold TranslateOld.update_gui, empty, get. rewrite Hq. fold m.
  destruct (ends_with dots x); cbv zeta beta iota;
    destruct (Z.gtb_spec (len (TranslateOld.text_buffer s ++ sep ++ x)) m);
    simpl; repeat split; try reflexivity;
    symmetry; apply last_chars_short; assumption.
Qed.

(** X8: in live_translate_old.py the buffer never exceeds a positive limit:
    a call of [update_gui] keeps [len(text_buffer) <= max_buffer_length],
    whatever item it takes, and so does any number of calls; the text
    shown by a call that takes an item has at most [max_buffer_length]
    characters. *)
Theorem old_buffer_bounded s (n : nat) :
  let m := max_buffer_length (TranslateOld.config s) in
  0 < m ->
  len (TranslateOld.text_buffer s) <= m ->
  len (TranslateOld.text_buffer (TranslateOld.update_gui s)) <= m
  /\ len (TranslateOld.text_buffer (old_calls n s)) <= m
  /\ (empty (TranslateOld.transcript_queue s) = false ->
      len (TranslateOld.label (TranslateOld.update_gui s)) <= m).
Proof.
  intros m Hm Hb.
  assert (Hone : forall t : TranslateOld.State,
             max_buffer_length (TranslateOld.config t) = m ->
             len (TranslateOld.text_buffer t) <= m ->
             len (TranslateOld.text_buffer (TranslateOld.update_gui t)) <= m).
  { intros t Hc Ht.
    destruct (items (TranslateOld.transcript_queue t)) as [|x rest] eqn:Hq.
    - unfold TranslateOld.update_gui, empty. now rewrite Hq.
    - destruct (old_update_gui_item t x rest Hq) as (_ & Hbuf & _);
        [rewrite Hc; exact Hm|].
      rewrite Hbuf, Hc.
      destruct (Z.gtb_spec (len (TranslateOld.text_buffer t ++ sep ++ x)) m).
      + rewrite last_chars_len by exact Hm. lia.
      + destruct (ends_with dots x); [exact Ht | assumption]. }
  split; [now apply Hone|]. split.
  - unfold old_calls.
    assert (G : max_buffer_length (TranslateOld.config (Nat.iter n TranslateOld.update_gui s)) = m
                /\ len (TranslateOld.text_buffer (Nat.iter n TranslateOld.update_gui s)) <= m).
    { induction n as [|k [IH1 IH2]]; simpl; [now split|].
      split; [now rewrite old_update_gui_config | now apply Hone]. }
    apply G.
  - intros Hne.
    destruct (items (TranslateOld.transcript_queue s)) as [|x rest] eqn:Hq.
    + unfold empty in Hne. now rewrite Hq in Hne.
    + destruct (old_update_gui_item s x rest Hq Hm) as (Hl & _).
      rewrite Hl, last_chars_len by exact Hm. lia.
Qed.

Lemma old_buffer_bounded_witness :
  let s := TranslateOld.mkState (mkConfig 10 100) true
             (mkQueue 0 [lit "klm"; lit "nop..."; lit "qrs"]) "abcdefghij" [] in
  0 < max_buffer_length (TranslateOld.config s)
  /\ len (TranslateOld.text_buffer s) <= 10
  /\ len (TranslateOld.text_buffer (old_calls 3 s)) <= 10.
Proof.
  intros s. split; [reflexivity|]. split; [discriminate|].
  exact (proj1 (proj2 (old_buffer_bounded s 3 eq_refl ltac:(discriminate)))).
Defined.

Lemma old_capture_put translator (r : Recognized) s (raw t x : str) :
  maxsize (TranslateOld.transcript_queue s) <= 0 ->
  strip raw <> [] ->
  translator (strip raw) = Returns t ->
  (r = FinalResult raw /\ x = t) \/ (r = PartialResult raw /\ x = t ++ dots) ->
  TranslateOld.capture_step translator (Returns r) s AtRecord
  = Some (set_transcript_queue
            (mkQueue (maxsize (TranslateOld.transcript_queue s))
                     (items (TranslateOld.transcript_queue s) ++ [x])) s, Head).
Proof.
  intros Hmax Hne Htr [[-> ->]|[-> ->]]; simpl;
    destruct (strip raw) eqn:E; try congruence; simpl;
    rewrite Htr, put_unbounded by exact Hmax; reflexivity.
Qed.

(** X9: in live_translate_old.py a partial result, once translated and
    marked by the capture thread, is shown after the buffer by the next
    [update_gui] and leaves the buffer as it was; a final result is
    committed, as the tail of the buffer that fits the limit, unless its
    translation itself ends with "...", in which case it is shown like a
    partial and never committed. *)
Theorem old_capture_then_show translator s (raw t : str) :
  let m := max_buffer_length (TranslateOld.config s) in
  let tb := TranslateOld.text_buffer s in
  items (TranslateOld.transcript_queue s) = [] ->
  maxsize (TranslateOld.transcript_queue s) <= 0 ->
  strip raw <> [] ->
  translator (strip raw) = Returns t ->
  0 < m ->
  len tb <= m ->
  (exists s1,
     TranslateOld.capture_step translator (Returns (PartialResult raw)) s AtRecord
       = Some (s1, Head)
     /\ TranslateOld.text_buffer (TranslateOld.update_gui s1) = tb
     /\ TranslateOld.label (TranslateOld.update_gui s1)
        = last_chars m (tb ++ sep ++ t ++ dots))
  /\ (exists s1,
        TranslateOld.capture_step translator (Returns (FinalResult raw)) s AtRecord
          = Some (s1, Head)
        /\ TranslateOld.text_buffer (TranslateOld.update_gui s1)
           = (if ends_with dots t then tb else last_chars m (tb ++ sep ++ t))
        /\ TranslateOld.label (TranslateOld.update_gui s1)
           = last_chars m (tb ++ sep ++ t)).
Proof.
  intros m tb Hq Hmax Hne Htr Hm Hb.
  assert (Hshow : forall x : str,
             let s1 := set_transcript_queue
                         (mkQueue (maxsize (TranslateOld.transcript_queue s))
                                  (items (TranslateOld.transcript_queue s) ++ [x])) s in
             TranslateOld.text_buffer (TranslateOld.update_gui s1)
             = (if ends_with dots x then tb else last_chars m (tb ++ sep ++ x))
             /\ TranslateOld.label (TranslateOld.update_gui s1)
                = last_chars m (tb ++ sep ++ x)).
  { intros x s1.
    destruct (old_update_gui_item s1 x []) as (Hl & Hbuf & _);
      [unfold s1; simpl; now rewrite Hq | exact Hm|].
    change (TranslateOld.text_buffer s1) with tb in Hl, Hbuf.
    change (max_buffer_length (TranslateOld.config s1)) with m in Hl, Hbuf.
    split; [|exact Hl]. rewrite Hbuf.
    destruct (ends_with dots x).
    - destruct (len (tb ++ sep ++ x) >? m); [|reflexivity].
      now apply last_chars_short.
    - destruct (Z.gtb_spec (len (tb ++ sep ++ x)) m); [reflexivity|].
      symmetry. now apply last_chars_short. }
  split.
  - eexists. split.
    + apply (old_capture_put translator _ s raw t (t ++ dots)); auto.
    + destruct (Hshow (t ++ dots)) as [H1 H2].
      split; [|exact H2]. rewrite H1.
      replace (ends_with dots (t ++ dots)) with true; [reflexivity|].
      symmetry. apply ends_with_iff. now exists t.
  - eexists. split.
    + apply (old_capture_put translator _ s raw t t); auto.
    + apply Hshow.
Qed.

Lemma old_capture_then_show_witness :
  let s := TranslateOld.mkState (mkConfig 200 100) true new " hello" [] in
  items (TranslateOld.transcript_queue s) = []
  /\ maxsize (TranslateOld.transcript_queue s) <= 0
  /\ strip " wait " <> []
  /\ identity (strip " wait ") = Returns (lit "wait")
  /\ 0 < max_buffer_length (TranslateOld.config s)
  /\ len (TranslateOld.text_buffer s) <= 200
  /\ exists s1,
       TranslateOld.capture_step identity (Returns (PartialResult " wait ")) s AtRecord
         = Some (s1, Head)
       /\ TranslateOld.text_buffer (TranslateOld.update_gui s1) = lit " hello".
Proof.
  intros s.
  split; [reflexivity|]. split; [discriminate|]. split; [discriminate|].
  split; [reflexivity|]. split; [reflexivity|]. split; [discriminate|].
  destruct (old_capture_then_show identity s " wait " "wait" eq_refl
              ltac:(discriminate) ltac:(discriminate) eq_refl eq_refl
              ltac:(discriminate)) as [(s1 & H1 & H2 & _) _].
  exists s1. split; [exact H1 | exact H2].
Defined.

(** X10: in live_translate_old.py an exception of the translator is caught
    by the capture thread like an audio error: the flag is cleared, the
    thread returns and takes no further step, and the event is not put on
    the queue, for a final and for a partial result alike. *)
Theorem old_translator_failure_stops_capture translator s (raw : str)
    (r : Recognized) :
  r = FinalResult raw \/ r = PartialResult raw ->
  strip raw <> [] ->
  translator (strip raw) = Raises ->
  exists s1,
    TranslateOld.capture_step translator (Returns r) s AtRecord = Some (s1, Exited)
    /\ TranslateOld.running s1 = false
    /\ TranslateOld.transcript_queue s1 = TranslateOld.transcript_queue s
    /\ TranslateOld.text_buffer s1 = TranslateOld.text_buffer s
    /\ forall o, TranslateOld.capture_step translator o s1 Exited = None.
Proof.
  intros Hr Hne Htr. exists (TranslateOld.set_running false s).
  split; [|repeat split].
  destruct Hr as [-> | ->]; simpl; destruct (strip raw); try congruence;
    simpl; now rewrite Htr.
Qed.

Lemma old_translator_failure_stops_capture_witness :
  let s := TranslateOld.init_state (mkConfig 200 100) in
  strip "bonjour" <> []
  /\ failing (strip "bonjour") = Raises
  /\ exists s1,
       TranslateOld.capture_step failing (Returns (FinalResult "bonjour")) s AtRecord
         = Some (s1, Exited)
       /\ TranslateOld.running s1 = false.
Proof.
  intros s. split; [discriminate|]. split; [reflexivity|].
  destruct (old_translator_failure_stops_capture failing s "bonjour"
              (FinalResult "bonjour") (or_introl eq_refl)
              ltac:(discriminate) eq_refl) as (s1 & H1 & H2 & _).
  exists s1. split; [exact H1 | exact H2].
Defined.

End OldVariant.

(** ** The caption variants over several calls *)

Section CaptionRuns.

Import CaptionsRun.

Implicit Types (g : Captions.Gui) (xs : list str).

Lemma committed_app xs ys : committed (xs ++ ys) = committed xs ++ committed ys.
Proof.
  induction xs as [|x r IH]; simpl; [reflexivity|].
  now rewrite IH, app_assoc.
Qed.

Lemma captions_call (m mx : Z) (tb lb x : str) (rest : list str) :
  Captions.update_gui m (Captions.mkGui tb (mkQueue mx (x :: rest)) lb)
  = Captions.mkGui (tb ++ committed [x]) (mkQueue mx rest)
                   (last_chars m (tb ++ sep ++ x)).
Proof.
  unfold Captions.update_gui, empty, get. simpl.
  destruct (contains dots x); simpl; now rewrite ?app_nil_r.
Qed.

(** X11: live_captions.py takes exactly one item from the queue per call of
    [update_gui], so [n] calls consume the first [n] items, in order, and
    no more; after them [text_buffer] has grown by one copy, after a
    separator, of each consumed item that does not contain "...", and by
    nothing for the items that do. *)
Theorem captions_one_item_per_call (m : Z) (n : nat) g :
  let its := items (Captions.transcript_queue g) in
  items (Captions.transcript_queue (calls m n g)) = drop n its
  /\ maxsize (Captions.transcript_queue (calls m n g))
     = maxsize (Captions.transcript_queue g)
  /\ Captions.text_buffer (calls m n g)
     = Captions.text_buffer g ++ committed (take n its).
Proof.
  intros its. unfold calls. induction n as [|n (IH1 & IH2 & IH3)].
  - simpl. rewrite drop_0, app_nil_r. auto.
  - rewrite Nat.iter_succ.
    destruct (Nat.iter n (Captions.update_gui m) g) as [tb [mx q] lb] eqn:E.
    simpl in IH1, IH2, IH3. subst mx.
    destruct (its !! n) as [x|] eqn:Hx.
    + rewrite (take_S_r _ _ _ Hx), committed_app.
      rewrite (drop_S _ _ _ Hx) in IH1. subst q.
      rewrite captions_call. simpl. rewrite IH3, <- app_assoc. auto.
    + apply lookup_ge_None in Hx.
      rewrite drop_ge in IH1 by lia. subst q.
      rewrite drop_ge, !take_ge by lia. rewrite take_ge in IH3 by lia.
      unfold Captions.update_gui, empty. simpl. auto.
Qed.

End CaptionRuns.

(** ** The optimised caption variant *)

Section OptimisedFacts.

Implicit Types s r : str.

Lemma remove_dots_marker r : remove_dots (dots ++ r) = remove_dots r.
Proof. reflexivity. Qed.

Lemma remove_dots_other (c : ascii) r :
  starts_with dots (c :: r) = false ->
  remove_dots (c :: r) = c :: remove_dots r.
Proof.
  intros H.
  destruct c as [[] [] [] [] [] [] [] []]; try reflexivity.
  destruct r as [|c2 r2]; [reflexivity|].
  destruct c2 as [[] [] [] [] [] [] [] []]; try reflexivity.
  destruct r2 as [|c3 r3]; [reflexivity|].
  destruct c3 as [[] [] [] [] [] [] [] []]; try reflexivity.
  discriminate H.
Qed.

(** The three shapes of an argument of [remove_dots]. *)
Lemma remove_dots_cases s :
  s = []
  \/ (exists r, s = dots ++ r /\ remove_dots s = remove_dots r)
  \/ (exists c r, s = c :: r /\ starts_with dots s = false
                  /\ remove_dots s = c :: remove_dots r).
Proof.
  destruct s as [|c r]; [now left|]. right.
  destruct (starts_with dots (c :: r)) eqn:E.
  - left. apply starts_with_iff in E. destruct E as [r' E].
    exists r'. rewrite E. split; reflexivity.
  - right. exists c, r. split; [reflexivity|]. split; [reflexivity|].
    now apply remove_dots_other.
Qed.

Lemma remove_dots_length s : (length (remove_dots s) <= length s)%nat.
Proof.
  remember (length s) as n eqn:Hn. revert s Hn.
  induction n as [n IH] using lt_wf_ind. intros s Hn.
  destruct (remove_dots_cases s) as [-> | [(r & -> & E) | (c & r & -> & _ & E)]].
  - simpl. lia.
  - rewrite E. rewrite length_app in Hn. simpl in Hn.
    pose proof (IH (length r) ltac:(lia) r eq_refl). lia.
  - rewrite E. simpl in *.
    pose proof (IH (length r) ltac:(lia) r eq_refl). lia.
Qed.

(** The result of [remove_dots] begins with a dot only if the argument
    does. *)
Lemma remove_dots_head s :
  starts_with ["."%char] (remove_dots s) = true -> starts_with ["."%char] s = true.
Proof.
  remember (length s) as n eqn:Hn. revert s Hn.
  induction n as [n IH] using lt_wf_ind. intros s Hn H.
  destruct (remove_dots_cases s) as [-> | [(r & -> & E) | (c & r & -> & _ & E)]].
  - discriminate H.
  - reflexivity.
  - rewrite E in H. exact H.
Qed.

Lemma remove_dots_head2 s :
  starts_with ["."%char; "."%char] (remove_dots s) = true ->
  starts_with ["."%char; "."%char] s = true.
Proof.
  intros H.
  destruct (remove_dots_cases s) as [-> | [(r & -> & E) | (c & r & -> & _ & E)]].
  - discriminate H.
  - reflexivity.
  - rewrite E in H. cbn [starts_with] in *.
    apply andb_true_iff in H. destruct H as [H1 H2]. rewrite H1. simpl.
    apply (remove_dots_head r). exact H2.
Qed.

Lemma remove_dots_clean s : contains dots (remove_dots s) = false.
Proof.
  remember (length s) as n eqn:Hn. revert s Hn.
  induction n as [n IH] using lt_wf_ind. intros s Hn.
  destruct (remove_dots_cases s) as [-> | [(r & -> & E) | (c & r & -> & Hs & E)]].
  - reflexivity.
  - rewrite E. rewrite length_app in Hn. simpl in Hn.
    apply (IH (length r)); [lia | reflexivity].
  - rewrite E. cbn [contains].
    rewrite (IH (length r)) by (simpl in Hn; lia || reflexivity).
    rewrite orb_false_r.
    destruct (starts_with dots (c :: remove_dots r)) eqn:F; [|reflexivity].
    exfalso. unfold dots in F, Hs. cbn [lit list_ascii_of_string starts_with] in F, Hs.
    apply andb_true_iff in F. destruct F as [F1 F2].
    rewrite F1, andb_true_l in Hs.
    pose proof (remove_dots_head2 r F2) as G.
    assert (Hs' : starts_with ["."%char; "."%char] r = false) by exact Hs.
    congruence.
Qed.

(** X12: the text that the optimised variant shows after taking an item
    never contains the marker "...", and with a positive limit it has at
    most [max_buffer_length] characters. *)
Theorem optimised_label_clean (max_length : Z) (g : CaptionsOptimised.Gui) :
  empty (CaptionsOptimised.transcript_queue g) = false ->
  contains dots (CaptionsOptimised.label (CaptionsOptimised.update_gui max_length g))
    = false
  /\ (0 < max_length ->
      len (CaptionsOptimised.label (CaptionsOptimised.update_gui max_length g))
        <= max_length).
Proof.
  intros Hq. unfold CaptionsOptimised.update_gui. rewrite Hq.
  destruct g as [tb [mx [|x rest]] lb]; [discriminate|].
  unfold get. simpl. split; [apply remove_dots_clean|].
  intros Hm.
  match goal with |- len (remove_dots (last_chars _ ?b)) <= _ =>
    pose proof (remove_dots_length (last_chars max_length b)) as Hl;
    pose proof (last_chars_len max_length b Hm) as Hc
  end.
  unfold len in *. lia.
Qed.

Lemma optimised_label_clean_witness :
  let g := CaptionsOptimised.mkGui " HELLO" (mkQueue 0 [lit "WAIT.... WHAT..."]) [] in
  empty (CaptionsOptimised.transcript_queue g) = false
  /\ contains dots (CaptionsOptimised.label (CaptionsOptimised.update_gui 200 g))
     = false.
Proof.
  intros g. split; [reflexivity|].
  exact (proj1 (optimised_label_clean 200 g eq_refl)).
Defined.

(** X13: in the optimised variant a partial item replaces the whole buffer
    and stays in it: whatever was committed before, after a partial item
    and then a final item the buffer is the partial item, marker included,
    followed by the final item. *)
Theorem optimised_partial_sticks (max_length mx : Z) (tb lb p f : str)
    (rest : list str) :
  contains dots p = true ->
  contains dots f = false ->
  let g := CaptionsOptimised.mkGui tb (mkQueue mx (p :: f :: rest)) lb in
  let g1 := CaptionsOptimised.update_gui max_length g in
  let g2 := CaptionsOptimised.update_gui max_length g1 in
  CaptionsOptimised.text_buffer g1 = p
  /\ CaptionsOptimised.text_buffer g2 = p ++ sep ++ f
  /\ CaptionsOptimised.label g2
     = remove_dots (last_chars max_length (p ++ sep ++ f))
  /\ items (CaptionsOptimised.transcript_queue g2) = rest.
Proof.
  intros Hp Hf g g1 g2. subst g g1 g2.
  unfold CaptionsOptimised.update_gui, empty, get. simpl.
  rewrite Hp. simpl. rewrite Hf. repeat split.
Qed.

Lemma optimised_partial_sticks_witness :
  contains dots "HELLO..." = true
  /\ contains dots "HELLO" = false
  /\ CaptionsOptimised.label
       (CaptionsOptimised.update_gui 200
          (CaptionsOptimised.update_gui 200
             (CaptionsOptimised.mkGui " EARLIER TEXT"
                (mkQueue 0 [lit "HELLO..."; lit "HELLO"]) [])))
     = lit "HELLO HELLO".
Proof.
  split; [reflexivity|]. split; [reflexivity|].
  exact (proj1 (proj2 (proj2
           (optimised_partial_sticks 200 0 " EARLIER TEXT" [] "HELLO..." "HELLO" []
              eq_refl eq_refl)))).
Defined.

End OptimisedFacts.

(** ** setup_translator_auto and the package index *)

Section SetupFacts.

Import Translate Setup.

Lemma str_eq_true (a b : str) : str_eq a b = true <-> a = b.
Proof. unfold str_eq. apply bool_decide_eq_true. Qed.

Lemma scan_translations_spec (to : str) (ts : list str) (flag : bool) :
  scan_translations to ts flag = existsb (fun t => str_eq t to) ts || flag.
Proof.
  induction ts as [|t r IH]; simpl; [reflexivity|].
  destruct (str_eq t to); [reflexivity | exact IH].
Qed.

Lemma existsb_valid (to : str) (l : list (option str)) :
  existsb (fun t => str_eq t to) (omap id l) = existsb (has_code to) l.
Proof.
  induction l as [|[c|] r IH]; [reflexivity | |].
  - change (omap id (Some c :: r)) with (c :: omap id r).
    cbn [existsb has_code]. now rewrite IH.
  - change (omap id (None :: r)) with (omap id r).
    cbn [existsb has_code]. exact IH.
Qed.

Lemma installed_pair_iff (from to : str) (installed : list Language) :
  already_installed from to installed = true
  <-> exists lang, lang ∈ installed /\ code lang = from
                   /\ Some to ∈ translations_to lang.
Proof.
  unfold already_installed. rewrite existsb_exists. split.
  - intros (lang & Hin & H). apply andb_true_iff in H. destruct H as [H1 H2].
    apply existsb_exists in H2. destruct H2 as ([c|] & Hc & H2); [|discriminate].
    simpl in H2. apply str_eq_true in H1, H2. subst c.
    exists lang. rewrite !list_elem_of_In. auto.
  - intros (lang & Hin & H1 & H2). exists lang.
    rewrite list_elem_of_In in Hin. rewrite list_elem_of_In in H2.
    split; [exact Hin|].
    apply andb_true_iff. split; [now apply str_eq_true|].
    apply existsb_exists. exists (Some to). split; [exact H2|].
    simpl. now apply str_eq_true.
Qed.

(** X14: the test for an installed language pair is the same in both
    versions of the program: the loops with [break] of
    live_translate_old.py compute what the nested [any] of
    live_translate.py computes, and it is true exactly when some installed
    language has the source code and lists a translation that has the
    target code. *)
Theorem installed_check_agrees (from to : str) (installed : list Language) :
  already_installed_old from to installed = already_installed from to installed
  /\ (already_installed from to installed = true
      <-> exists lang, lang ∈ installed /\ code lang = from
                       /\ Some to ∈ translations_to lang).
Proof.
  split; [|apply installed_pair_iff].
  unfold already_installed_old, already_installed.
  induction installed as [|lang rest IH]; simpl; [reflexivity|].
  destruct (str_eq (code lang) from); simpl; [|exact IH].
  rewrite scan_translations_spec, orb_false_r.
  unfold valid_translations. rewrite existsb_valid.
  destruct (existsb (has_code to) (translations_to lang)); [reflexivity | exact IH].
Qed.

(** X15: [setup_translator_auto] returns the Argos translator when the pair
    is installed or a package for the pair is on offer, the first such
    package being the one installed; only when neither is the case does it
    return the identity, which gives back every text unchanged and never
    raises. *)
Theorem setup_choice (from to : str) (installed : list Language)
    (available : list Package) (argos : Translator) :
  ((exists lang, lang ∈ installed /\ code lang = from
                 /\ Some to ∈ translations_to lang) ->
   setup from to installed available argos = argos)
  /\ ((exists p, p ∈ available /\ from_code p = from /\ to_code p = to) ->
      setup from to installed available argos = argos
      /\ exists p before after,
           find_package from to available = Some p
           /\ available = before ++ p :: after
           /\ from_code p = from /\ to_code p = to
           /\ forall q, q ∈ before -> ~ (from_code q = from /\ to_code q = to))
  /\ (~ (exists lang, lang ∈ installed /\ code lang = from
                      /\ Some to ∈ translations_to lang) ->
      ~ (exists p, p ∈ available /\ from_code p = from /\ to_code p = to) ->
      forall text, setup from to installed available argos text = Returns text).
Proof.
  assert (Hfind : forall l : list Package,
            (exists p, p ∈ l /\ from_code p = from /\ to_code p = to) ->
            exists p before after,
              find_package from to l = Some p
              /\ l = before ++ p :: after
              /\ from_code p = from /\ to_code p = to
              /\ forall q, q ∈ before -> ~ (from_code q = from /\ to_code q = to)).
  { induction l as [|a r IH]; intros (p & Hin & Hp).
    - inversion Hin.
    - unfold find_package. simpl.
      destruct (str_eq (from_code a) from && str_eq (to_code a) to) eqn:E.
      + apply andb_true_iff in E. destruct E as [E1 E2].
        apply str_eq_true in E1, E2.
        exists a, [], r. repeat split; auto. intros q Hq. inversion Hq.
      + destruct IH as (p' & b & c & H1 & H2 & H3 & H4 & H5).
        { apply elem_of_cons in Hin. destruct Hin as [-> | Hin].
          - destruct Hp as [Hp1 Hp2]. apply str_eq_true in Hp1, Hp2.
            rewrite Hp1, Hp2 in E. discriminate.
          - now exists p. }
        exists p', (a :: b), c. split; [exact H1|]. split; [now rewrite H2|].
        split; [exact H3|]. split; [exact H4|].
        intros q Hq. apply elem_of_cons in Hq. destruct Hq as [-> | Hq].
        * intros [Q1 Q2]. apply str_eq_true in Q1, Q2.
          rewrite Q1, Q2 in E. discriminate.
        * now apply H5. }
  split; [|split].
  - intros H. apply installed_pair_iff in H. unfold setup. now rewrite H.
  - intros H. destruct (Hfind available H) as (p & b & c & H1 & Hrest).
    split; [|now exists p, b, c].
    unfold setup, setup_translator_auto. rewrite H1.
    now destruct (already_installed from to installed).
  - intros Hno1 Hno2 text. unfold setup, setup_translator_auto.
    destruct (already_installed from to installed) eqn:E1.
    { exfalso. apply Hno1. now apply installed_pair_iff. }
    destruct (find_package from to available) as [p|] eqn:E2; [|reflexivity].
    exfalso. apply Hno2. unfold find_package in E2.
    apply find_some in E2. destruct E2 as [Hin Hp].
    apply andb_true_iff in Hp. destruct Hp as [Hp1 Hp2].
    apply str_eq_true in Hp1, Hp2.
    exists p. rewrite list_elem_of_In. auto.
Qed.

Lemma installed_check_agrees_witness :
  let installed := [mkLanguage "fr" [Some (lit "en")];
                    mkLanguage "en" [None; Some (lit "hi")]] in
  (exists lang, lang ∈ installed /\ code lang = lit "en"
                /\ Some (lit "hi") ∈ translations_to lang)
  /\ already_installed "en" "hi" installed = true
  /\ already_installed_old "en" "hi" installed = true.
Proof.
  intros installed.
  assert (H : exists lang, lang ∈ installed /\ code lang = lit "en"
                           /\ Some (lit "hi") ∈ translations_to lang).
  { exists (mkLanguage "en" [None; Some (lit "hi")]).
    split; [apply list_elem_of_In; right; left; reflexivity|].
    split; [reflexivity|]. apply list_elem_of_In. right. left. reflexivity. }
  split; [exact H|].
  pose proof (installed_check_agrees "en" "hi" installed) as [Heq Hiff].
  split; [exact (proj2 Hiff H)|].
  rewrite Heq. exact (proj2 Hiff H).
Defined.

Lemma setup_choice_witness :
  let installed := [mkLanguage "en" [None; Some (lit "fr")]] in
  let available := [mkPackage "en" "de"; mkPackage "en" "hi"] in
  (exists p, p ∈ available /\ from_code p = lit "en" /\ to_code p = lit "hi")
  /\ setup "en" "hi" installed available failing = failing.
Proof.
  intros installed available.
  assert (H : exists p, p ∈ available /\ from_code p = lit "en"
                        /\ to_code p = lit "hi").
  { exists (mkPackage "en" "hi"). split; [|split; reflexivity].
    apply list_elem_of_In. right. left. reflexivity. }
  split; [exact H|].
  exact (proj1 (proj1 (proj2 (setup_choice "en" "hi" installed available failing)) H)).
Defined.

End SetupFacts.

(** ** test-deepseek.py: fixed offsets into the recognizer's answer *)

Section DeepseekFacts.

Import Deepseek.

Lemma slice_unwrap (a b : Z) (pre t suf : str) :
  0 <= a -> 0 < b ->
  Z.of_nat (length pre) <= a ->
  Z.of_nat (length suf) = b ->
  slice a (- b) (pre ++ t ++ suf) = drop (Z.to_nat a - length pre) t.
Proof.
  intros Ha Hb Hpre Hsuf. unfold slice, clamp, len.
  rewrite !length_app.
  destruct (Z.ltb_spec a 0); [lia|].
  destruct (Z.ltb_spec (- b) 0); [|lia].
  destruct (Z.ltb_spec
              (Z.min a (Z.of_nat (length pre + (length t + length suf))))
              (Z.max (Z.of_nat (length pre + (length t + length suf)) + - b) 0))
    as [Hlt|Hge].
  - rewrite Z.min_l in * by lia. rewrite Z.max_l in * by lia.
    rewrite drop_app_ge by lia.
    rewrite drop_app_le by lia.
    apply take_app_length'. rewrite length_drop. lia.
  - symmetry. apply drop_ge. lia.
Qed.

Lemma slice_short (a b : Z) (s : str) :
  0 <= a -> 0 <= b -> len s <= a + b -> slice a (- b) s = [].
Proof.
  intros Ha Hb Hs. pose proof (len_nonneg s). unfold slice, clamp. cbv zeta.
  destruct (Z.ltb_spec a 0); [lia|].
  destruct (Z.ltb_spec (- b) 0);
    match goal with
    | |- context [if ?x <? ?y then _ else _] => destruct (Z.ltb_spec x y)
    end; try reflexivity; lia.
Qed.

(** X16: test-deepseek.py takes the text out of the recognizer's answer by
    position.  For an answer made of a prefix, a text and a three-character
    suffix, what is put on the queue is the text when the prefix has
    exactly 17 characters (partial) or 18 (final); with a shorter prefix
    the first characters of the text itself are cut off, one for every
    missing character; an empty remainder is not put on the queue, and an
    answer of at most 20 characters (21 for a final) yields nothing. *)
Theorem deepseek_fixed_offsets (pre t suf : str) :
  length suf = 3%nat ->
  ((length pre <= 17)%nat ->
   capture_item (PartialJson (pre ++ t ++ suf))
   = (let partial := drop (17 - length pre) t in
      if truthy partial then Some partial else None))
  /\ ((length pre <= 18)%nat ->
      capture_item (ResultJson (pre ++ t ++ suf))
      = (let result := drop (18 - length pre) t in
         if truthy result then Some result else None))
  /\ (forall s, len s <= 20 -> capture_item (PartialJson s) = None)
  /\ (forall s, len s <= 21 -> capture_item (ResultJson s) = None).
Proof.
  intros Hsuf. unfold capture_item. split; [|split; [|split]].
  - intros Hpre. rewrite (slice_unwrap 17 3) by lia. reflexivity.
  - intros Hpre. rewrite (slice_unwrap 18 3) by lia. reflexivity.
  - intros s Hs. now rewrite (slice_short 17 3) by lia.
  - intros s Hs. now rewrite (slice_short 18 3) by lia.
Qed.

Lemma deepseek_fixed_offsets_witness :
  length (lit "!!!") = 3%nat
  /\ capture_item (ResultJson (lit "12345678901234" ++ lit "hello world" ++ lit "!!!"))
     = Some (lit "o world").
Proof.
  split; [reflexivity|].
  exact (proj1 (proj2 (deepseek_fixed_offsets "12345678901234" "hello world" "!!!"
                         eq_refl)) ltac:(simpl; lia)).
Defined.

Lemma show_all_last (its : list str) (lb : str) :
  show_all its lb = default lb (last its).
Proof.
  revert lb. induction its as [|x r IH]; intros lb; simpl; [reflexivity|].
  rewrite IH. destruct r as [|y r']; [reflexivity|].
  change (last (x :: y :: r')) with (last (y :: r')).
  destruct (last (y :: r')) eqn:E; [reflexivity|].
  apply last_None in E. discriminate.
Qed.

(** X17: [update_gui] of test-deepseek.py empties the queue on every call
    and shows only the newest of the texts it found; the older ones are
    never visible, and the label is unchanged when the queue was empty. *)
Theorem deepseek_shows_newest (g : Gui) :
  items (transcript_queue (update_gui g)) = []
  /\ label (update_gui g) = default (label g) (last (items (transcript_queue g)))
  /\ (forall older newest,
        items (transcript_queue g) = older ++ [newest] ->
        label (update_gui g) = newest).
Proof.
  split; [reflexivity|]. split; [apply show_all_last|].
  intros older newest H. unfold update_gui. simpl.
  rewrite show_all_last, H, last_snoc. reflexivity.
Qed.

Lemma deepseek_shows_newest_witness :
  let g := mkGui (mkQueue 0 [lit "hel"; lit "hello"; lit "hello world"]) "old" in
  items (transcript_queue g) = [lit "hel"; lit "hello"] ++ [lit "hello world"]
  /\ label (update_gui g) = lit "hello world".
Proof.
  intros g. split; [reflexivity|].
  exact (proj2 (proj2 (deepseek_shows_newest g))
           [lit "hel"; lit "hello"] (lit "hello world") eq_refl).
Defined.

End DeepseekFacts.

(** ** The placement of the window *)

Section WindowFacts.

Import Window.

(** X18: when the window is not wider than the screen, [setup_gui] places
    it inside the screen horizontally, with margins on the left and on the
    right that differ by at most one pixel, and with its lower edge 20
    pixels above the bottom of the screen. *)
Theorem placement_on_screen (screen_w screen_h default_w default_h : Z) :
  0 <= default_w <= screen_w ->
  let g := placement screen_w screen_h default_w default_h in
  0 <= x_pos g
  /\ x_pos g + width g <= screen_w
  /\ -1 <= (screen_w - (x_pos g + width g)) - x_pos g <= 1
  /\ y_pos g + height g = screen_h - 20.
Proof.
  intros H g. subst g. unfold placement. simpl.
  Z.div_mod_to_equations. lia.
Qed.

Lemma placement_on_screen_witness :
  0 <= 801 <= 1920
  /\ x_pos (placement 1920 1080 801 120) = 560
  /\ 0 <= x_pos (placement 1920 1080 801 120).
Proof.
  split; [lia|]. split; [reflexivity|].
  exact (proj1 (placement_on_screen 1920 1080 801 120 ltac:(lia))).
Defined.

End WindowFacts.

(** ** live_caption_gen.py: the transcription of a chunk *)

Section GenFacts.

Import Gen.

Lemma lstrip_all_space (s : str) : forallb is_space s = true -> lstrip s = [].
Proof.
  induction s as [|c r IH]; simpl; [reflexivity|].
  intros H. apply andb_true_iff in H. destruct H as [Hc Hr].
  rewrite Hc. now apply IH.
Qed.

Lemma joined_all_space (segments : list str) (acc : str) :
  Forall (fun t => forallb is_space t = true) segments ->
  forallb is_space acc = true ->
  forallb is_space
    (fold_left (fun transcription text => transcription ++ text ++ sep)
               segments acc) = true.
Proof.
  intros H. revert acc. induction H as [|t r Ht Hr IH]; intros acc Hacc; simpl.
  - exact Hacc.
  - apply IH. rewrite !forallb_app, Hacc, Ht. reflexivity.
Qed.

(** X20: the text that [transcribe_chunk] returns is stripped: it neither
    begins nor ends with white space, so the space added after the last
    segment never shows; one segment gives that segment's text stripped,
    and a chunk without segments, or with segments of white space only,
    gives the empty string. *)
Theorem transcribe_chunk_stripped (segments : list str) :
  strip (transcribe_chunk segments) = transcribe_chunk segments
  /\ match head (transcribe_chunk segments) with
     | Some c => is_space c = false
     | None => True
     end
  /\ match last (transcribe_chunk segments) with
     | Some c => is_space c = false
     | None => True
     end
  /\ (forall t, transcribe_chunk [t] = strip t)
  /\ (Forall (fun t => forallb is_space t = true) segments ->
      transcribe_chunk segments = []).
Proof.
  unfold transcribe_chunk.
  set (joined := fold_left (fun transcription text => transcription ++ text ++ sep)
                           segments []).
  split; [apply strip_idem|]. split.
  { pose proof (strip_head joined) as H. now destruct (strip joined). }
  split.
  { pose proof (rstrip_last (lstrip joined)) as H. fold (strip joined) in H.
    now destruct (last (strip joined)). }
  split.
  { intros t. simpl. apply (strip_snoc_space t " "%char). reflexivity. }
  intros H. unfold strip.
  rewrite lstrip_all_space; [reflexivity|].
  now apply joined_all_space.
Qed.

Lemma transcribe_chunk_stripped_witness :
  Forall (fun t => forallb is_space t = true) [lit "  "; lit " "]
  /\ transcribe_chunk [lit "  "; lit " "] = [].
Proof.
  assert (H : Forall (fun t => forallb is_space t = true) [lit "  "; lit " "]).
  { repeat constructor. }
  split; [exact H|].
  exact (proj2 (proj2 (proj2 (proj2
           (transcribe_chunk_stripped [lit "  "; lit " "])))) H).
Defined.

End GenFacts.
